(** * seqgrep: a grep for sequence files

    A shallow embedding of [seqgrep.py] and the properties of its
    format guess and of its filtering loop.

    The script is written for Python 2 on a POSIX system.  Strings are
    byte strings ([string]); integers that index strings are [Z], as
    [str.rfind] answers [-1] when nothing is found.  The collaborators the
    script imports (the [re] module, [Bio.Seq], [Bio.SeqIO], the file
    system) are the members of the class [Collaborators]; [main] and what
    is proved of it hold for every instance. *)

From Stdlib Require Import String Ascii List ZArith Bool Lia.
Import ListNotations.

Open Scope string_scope.

(** ** Python's string primitives *)

Module Py.

Open Scope Z_scope.

Definition len (s : string) : Z := Z.of_nat (String.length s).

Fixpoint drop (n : nat) (s : string) : string :=
  match n, s with
  | O, _ => s
  | S _, EmptyString => EmptyString
  | S n', String _ s' => drop n' s'
  end.

Fixpoint take (n : nat) (s : string) : string :=
  match n, s with
  | O, _ => EmptyString
  | S _, EmptyString => EmptyString
  | S n', String c s' => String c (take n' s')
  end.

(** A slice bound as Python normalises it: a negative bound counts from
    the end, and the result is clipped to [0 .. len s]. *)
Definition clip (s : string) (i : Z) : nat :=
  Z.to_nat (if i <? 0 then Z.max 0 (len s + i) else Z.min i (len s)).

(** [s[i:]] *)
Definition slice_from (s : string) (i : Z) : string := drop (clip s i) s.

(** [s[:i]] *)
Definition slice_to (s : string) (i : Z) : string := take (clip s i) s.

(** [s[i]] for [0 <= i]; [None] stands for the IndexError. *)
Definition item (s : string) (i : Z) : option ascii :=
  if i <? 0 then None else String.get (Z.to_nat i) s.

(** [s.rfind(c)] for a one-character [c]: the highest index at which [c]
    occurs, [-1] when it does not.  [i] is the index of the head of [s],
    [acc] the answer so far. *)
Fixpoint rfind_from (c : ascii) (s : string) (i acc : Z) : Z :=
  match s with
  | EmptyString => acc
  | String a s' => rfind_from c s' (i + 1) (if Ascii.eqb a c then i else acc)
  end.

Definition rfind (c : ascii) (s : string) : Z := rfind_from c s 0 (-1).

(** [str.lower] of a byte string: the letters A..Z only. *)
Definition lower_ascii (c : ascii) : ascii :=
  let n := nat_of_ascii c in
  if (Nat.leb 65 n && Nat.leb n 90)%bool then ascii_of_nat (n + 32) else c.

Fixpoint lower (s : string) : string :=
  match s with
  | EmptyString => EmptyString
  | String c s' => String (lower_ascii c) (lower s')
  end.

(** The loop of [genericpath._splitext] that skips the leading dots of
    the last path component:
<<
        filenameIndex = sepIndex + 1
        while filenameIndex < dotIndex:
            if p[filenameIndex] != extsep:
                return p[:dotIndex], p[dotIndex:]
            filenameIndex += 1
>>
    [n] is the number of iterations left, [dotIndex - filenameIndex].
    The answer is [true] when the loop returns the split. *)
Fixpoint skip_leading_dots (p : string) (filenameIndex : Z) (n : nat) : bool :=
  match n with
  | O => false
  | S n' =>
      match item p filenameIndex with
      | Some c =>
          if Ascii.eqb c "." then skip_leading_dots p (filenameIndex + 1) n'
          else true
      | None => false
      end
  end.

(** [os.path.splitext] of [posixpath]: [sep] is "/", [altsep] is [None],
    [extsep] is ".". *)
Definition splitext (p : string) : string * string :=
  let sepIndex := rfind "/" p in
  let dotIndex := rfind "." p in
  if dotIndex >? sepIndex then
    if skip_leading_dots p (sepIndex + 1) (Z.to_nat (dotIndex - (sepIndex + 1)))
    then (slice_to p dotIndex, slice_from p dotIndex)
    else (p, "")
  else (p, "").

(** A [dict] with string keys, as the list of its items; [None] stands
    for the KeyError of [d[k]]. *)
Definition dict := list (string * string).

Fixpoint getitem (d : dict) (k : string) : option string :=
  match d with
  | [] => None
  | (k', v) :: d' => if String.eqb k' k then Some v else getitem d' k
  end.

End Py.

(** ** [guess_seqformat] *)

Definition default : string := "fasta".

Definition ext_to_fmt_table : Py.dict :=
  [ ("aln", "clustal");
    ("embl", "embl");
    ("fasta", "fasta");
    ("fa", "fasta");
    ("genbank", "genbank");
    ("gb", "genbank");
    ("phylip", "phylip");
    ("phy", "phylip");
    ("ph", "phylip");
    ("pir", "pir");
    ("stockholm", "stockholm");
    ("st", "stockholm");
    ("stk", "stockholm") ].

Definition guess_seqformat (fseq : string) : string :=
  let fext := snd (Py.splitext fseq) in
  let fext := Py.lower (Py.slice_from fext 1) in
  match Py.getitem ext_to_fmt_table fext with
  | Some fmt => fmt
  | None => default
  end.

(** The table of the specification, as a total function of the
    (lower-case) extension: thirteen entries, anything else is fasta. *)
Definition format_of_extension (e : string) : string :=
  if e =? "aln" then "clustal"
  else if e =? "embl" then "embl"
  else if e =? "fasta" then "fasta"
  else if e =? "fa" then "fasta"
  else if e =? "genbank" then "genbank"
  else if e =? "gb" then "genbank"
  else if e =? "phylip" then "phylip"
  else if e =? "phy" then "phylip"
  else if e =? "ph" then "phylip"
  else if e =? "pir" then "pir"
  else if e =? "stockholm" then "stockholm"
  else if e =? "st" then "stockholm"
  else if e =? "stk" then "stockholm"
  else "fasta".

(** The final extension of a file name, read off the characters from
    left to right with no index arithmetic.  Within the last path
    component (what follows the last "/"), the extension is what follows
    the last "." that has a character other than "." somewhere before it;
    the dots that open a component (a hidden file) start no extension. *)
Module Ext.

Record scan := { named : bool; ext : option string }.

Definition start : scan := {| named := false; ext := None |}.

Definition step (st : scan) (c : ascii) : scan :=
  if Ascii.eqb c "/" then start
  else if Ascii.eqb c "." then
    {| named := named st; ext := if named st then Some "" else None |}
  else
    {| named := true;
       ext := option_map (fun e => e ++ String c "") (ext st) |}.

Fixpoint run (st : scan) (p : string) : scan :=
  match p with
  | EmptyString => st
  | String c p' => run (step st c) p'
  end.

End Ext.

Definition final_extension (p : string) : option string :=
  Ext.ext (Ext.run Ext.start p).

Definition format_of_name (p : string) : string :=
  match final_extension p with
  | Some e => format_of_extension (Py.lower e)
  | None => "fasta"
  end.

(** ** The data of the script *)

(** What the script reads of a [Bio.SeqRecord]; [seq] is [str(record.seq)]. *)
Module SeqRecord.
Record t := { id : string; description : string; seq : string }.
End SeqRecord.

(** The option values [optparse] hands to [main] (see [cmdline_parser]):
    a flag that is not given is [None], which is false. *)
Record Values := {
  search_in : string;
  verbose : bool;
  debug : bool;
  revcomp : bool;
  ignore_case : bool;
  invert_match : bool
}.

(** A Python exception: its class and its message. *)
Inductive exn := Exception (class message : string).

(** A file object: the process's standard input, or what [gzip.open] or
    [open(_, "rU")] made of a path.  A file object equals itself only. *)
Inductive handle :=
| sys_stdin
| gzip_open (fseq : string)
| open_rU (fseq : string).

Definition handle_eqb (h1 h2 : handle) : bool :=
  match h1, h2 with
  | sys_stdin, sys_stdin => true
  | gzip_open a, gzip_open b => String.eqb a b
  | open_rU a, open_rU b => String.eqb a b
  | _, _ => false
  end.

(** The records a [SeqIO.parse] generator yields, one at a time, until it
    is exhausted or the parser raises. *)
Inductive stream :=
| Yield (record : SeqRecord.t) (rest : stream)
| StopIteration
| Raise (e : exn).

Fixpoint yielded (records : stream) : list SeqRecord.t :=
  match records with
  | Yield r rest => r :: yielded rest
  | StopIteration => []
  | Raise _ => []
  end.

Fixpoint exhausted (records : stream) : bool :=
  match records with
  | Yield _ rest => exhausted rest
  | StopIteration => true
  | Raise _ => false
  end.

(** A compiled pattern ([re.compile]) and a match object. *)
Record RegexObject := { pattern : string; IGNORECASE : bool }.

Record MatchObject := { string_ : string; span : nat * nat }.

(** What a run does that can be seen from outside, in order. *)
Inductive event :=
| Stdout (text : string)
| Stderr (text : string)
| RevComp (s : string)
| Compile (pattern : string) (ignore_case : bool)
| Exists (fseq : string)
| Open (h : handle)
| Parse (h : handle) (fmt : string)
| Close (h : handle).

(** How a piece of the script ends: it goes on with a value, it leaves
    through [sys.exit], or an exception nobody catches unwinds it. *)
Inductive result (A : Type) :=
| Return (a : A)
| SystemExit (code : Z)
| Uncaught (e : exn).

Arguments Return {A} a.
Arguments SystemExit {A} code.
Arguments Uncaught {A} e.

(** The exit status of the interpreter. *)
Definition exit_status {A} (r : result A) : Z :=
  match r with
  | Return _ => 0
  | SystemExit code => code
  | Uncaught _ => 1
  end.

(** Standard output: the texts written, and their concatenation. *)
Fixpoint stdout_writes (t : list event) : list string :=
  match t with
  | [] => []
  | Stdout text :: t' => text :: stdout_writes t'
  | _ :: t' => stdout_writes t'
  end.

Definition stdout (t : list event) : string :=
  String.concat "" (stdout_writes t).

(** The levels of [logging]. *)
Module logging.
Definition DEBUG : Z := 10.
Definition INFO : Z := 20.
Definition WARN : Z := 30.
Definition CRITICAL : Z := 50.
End logging.

(** ** The collaborators

    What the script takes from outside: the file system and standard
    input (a world that reading may change), the regular expressions of
    [re], the sequences of [Bio.Seq] and the parsers of [Bio.SeqIO]. *)
Class Collaborators (World : Type) := {
  (** [os.path.basename(sys.argv[0])], the [%prog] of optparse *)
  prog : string;
  (** [str] of a list of strings *)
  str_list : list string -> string;
  (** [os.path.exists] *)
  os_path_exists : World -> string -> bool;
  (** the exception [gzip.open] or [open] raises, if it does *)
  open_error : World -> handle -> option exn;
  (** [SeqIO.parse(fhandle, fmt)], and the world once it has been read *)
  SeqIO_parse : handle -> string -> World -> stream * World;
  (** [str(Seq(s).reverse_complement())], or the exception it raises *)
  reverse_complement : string -> exn + string;
  (** the [re.error] of a pattern that does not compile *)
  re_error : string -> option exn;
  (** where [regexp.search(target)] finds its first match, if anywhere *)
  re_find : RegexObject -> string -> option (nat * nat)
}.

(** ** Sequencing, with a state, an early exit and a trace *)

Section Monad.

Variable World : Type.

(** The state a run threads: the world, the level of the root logger
    [LOG], and the clock that stamps the log lines ([clock 0] is the time
    of the next line). *)
Record state := {
  world : World;
  level : Z;
  clock : nat -> string
}.

(** [logging.basicConfig(level=logging.WARN, ...)] *)
Definition boot (w : World) (clock : nat -> string) : state :=
  {| world := w; level := logging.WARN; clock := clock |}.

Definition Script (A : Type) : Type := state -> result A * state * list event.

Definition ret {A} (a : A) : Script A := fun s => (Return a, s, []).

Definition bind {A B} (m : Script A) (f : A -> Script B) : Script B := fun s =>
  match m s with
  | (Return a, s', t) => let '(r, s'', t') := f a s' in (r, s'', (t ++ t')%list)
  | (SystemExit code, s', t) => (SystemExit code, s', t)
  | (Uncaught e, s', t) => (Uncaught e, s', t)
  end.

Definition outcome {A} (x : result A * state * list event) : result A :=
  fst (fst x).

Definition final {A} (x : result A * state * list event) : state :=
  snd (fst x).

Definition trace {A} (x : result A * state * list event) : list event :=
  snd x.

End Monad.

Arguments world {World} s.
Arguments level {World} s.
Arguments clock {World} s.
Arguments boot {World} w clock.
Arguments ret {World A} a.
Arguments bind {World A B} m f.
Arguments outcome {World A} x.
Arguments final {World A} x.
Arguments trace {World A} x.


Declare Scope script_scope.
Delimit Scope script_scope with script.

Notation "x <- m ;; k" := (bind m (fun x => k))
  (at level 61, m at next level, right associativity) : script_scope.
Notation "m ;; k" := (bind m (fun _ => k))
  (at level 61, right associativity) : script_scope.

Definition nl : string := String "010"%char "".

(** The module's docstring, [__doc__]. *)
Definition doc : string := "A grep for sequence files." ++ nl.

(** ** The script *)

Section Script.

Context {World : Type} `{Collaborators World}.

Open Scope script_scope.

Local Abbreviation M := (Script World).

Definition emit (e : event) : M unit := fun s => (Return tt, s, [e]).

Definition sys_exit {A} (code : Z) : M A := fun s => (SystemExit code, s, []).

Definition raise {A} (e : exn) : M A := fun s => (Uncaught e, s, []).

Definition when (b : bool) (m : M unit) : M unit :=
  if b then m else ret tt.

(** [for x in xs: body] *)
Fixpoint for_each {A} (xs : list A) (body : A -> M unit) : M unit :=
  match xs with
  | [] => ret tt
  | x :: xs' => body x ;; for_each xs' body
  end.

(** [for record in records: body], over a generator *)
Fixpoint for_records (records : stream) (body : SeqRecord.t -> M unit)
  : M unit :=
  match records with
  | Yield record rest => body record ;; for_records rest body
  | StopIteration => ret tt
  | Raise e => raise e
  end.

(** [print s] *)
Definition print (s : string) : M unit := emit (Stdout (s ++ nl)).

(** *** The logger [LOG]

    The root logger, with the format
    ['%(levelname)s [%(asctime)s]: %(message)s'] on standard error. *)

Definition LOG_setLevel (l : Z) : M unit := fun s =>
  (Return tt, {| world := world s; level := l; clock := clock s |}, []).

Definition LOG_log (levelno : Z) (levelname msg : string) : M unit := fun s =>
  if (levelno >=? level s)%Z then
    (Return tt,
     {| world := world s; level := level s; clock := fun n => clock s (S n) |},
     [Stderr (levelname ++ " [" ++ clock s 0 ++ "]: " ++ msg ++ nl)])
  else (Return tt, s, []).

Definition LOG_debug : string -> M unit := LOG_log logging.DEBUG "DEBUG".
Definition LOG_info : string -> M unit := LOG_log logging.INFO "INFO".
Definition LOG_fatal : string -> M unit := LOG_log logging.CRITICAL "CRITICAL".

(** *** What the script calls *)

(** [usage] of [cmdline_parser], with [%prog] expanded. *)
Definition usage : string :=
  prog ++ ": " ++ doc ++ nl ++ "usage: " ++ prog ++ " [options] file[s]".

(** [parser.error(msg)] of optparse: print the usage and the message on
    standard error, then [sys.exit(2)]. *)
Definition parser_error (msg : string) : M unit :=
  emit (Stderr ("Usage: " ++ usage ++ nl ++ nl)) ;;
  emit (Stderr (prog ++ ": error: " ++ msg ++ nl)) ;;
  sys_exit 2.

(** [str(Seq(s).reverse_complement())] *)
Definition Seq_reverse_complement (s : string) : M string :=
  emit (RevComp s) ;;
  match reverse_complement s with
  | inr s' => ret s'
  | inl e => raise e
  end.

(** [re.compile(pattern)] and [re.compile(pattern, flags=re.IGNORECASE)] *)
Definition re_compile (pattern : string) (ignorecase : bool) : M RegexObject :=
  emit (Compile pattern ignorecase) ;;
  match re_error pattern with
  | Some e => raise e
  | None => ret {| pattern := pattern; IGNORECASE := ignorecase |}
  end.

(** [regexp.search(target)]: a match object or [None] *)
Definition search (regexp : RegexObject) (target : string)
  : option MatchObject :=
  option_map (fun sp => {| string_ := target; span := sp |})
             (re_find regexp target).

Definition path_exists (fseq : string) : M bool := fun s =>
  (Return (os_path_exists (world s) fseq), s, [Exists fseq]).

(** [gzip.open(fseq)] and [open(fseq, "rU")] *)
Definition open_ (h : handle) : M handle := fun s =>
  match open_error (world s) h with
  | Some e => (Uncaught e, s, [Open h])
  | None => (Return h, s, [Open h])
  end.

Definition parse (fhandle : handle) (fmt : string) : M stream := fun s =>
  let '(records, w) := SeqIO_parse fhandle fmt (world s) in
  (Return records, {| world := w; level := level s; clock := clock s |},
   [Parse fhandle fmt]).

Definition close (fhandle : handle) : M unit := emit (Close fhandle).

(** *** [main] *)

(** Lines 168-200, the body of [for record in SeqIO.parse(fhandle, fmt)]. *)
Definition check_record (opts : Values) (regexp : RegexObject)
    (print_file_prefix : bool) (fseq fmt : string) (record : SeqRecord.t)
  : M unit :=
  target <-
    (if search_in opts =? "seq" then ret (SeqRecord.seq record)
     else if search_in opts =? "id" then
       if fmt =? "fasta" then ret (SeqRecord.description record)
       else ret (SeqRecord.id record)
     else raise (Exception "ValueError"
                   "internal error...not sure where to search in")) ;;
  let match_ := search regexp target in
  print_match <-
    match match_, invert_match opts with
    | Some m, false => LOG_debug ("match.string=" ++ string_ m) ;; ret true
    | None, true => ret true
    | _, _ => ret false
    end ;;
  when print_match
    (let prefix := if print_file_prefix then fseq ++ ":" else "" in
     if fmt =? "fasta" then
       print (prefix ++ ">" ++ SeqRecord.description record ++ nl
              ++ prefix ++ SeqRecord.seq record)
     else
       print (prefix ++ ">" ++ SeqRecord.id record ++ nl
              ++ prefix ++ SeqRecord.seq record)).

(** Lines 154-202, the body of the second [for fseq in seqfiles_arg]. *)
Definition search_file (opts : Values) (regexp : RegexObject)
    (print_file_prefix : bool) (fseq : string) : M unit :=
  fhandle <-
    (if fseq =? "-" then ret sys_stdin
     else if Py.slice_from fseq (-3) =? ".gz" then open_ (gzip_open fseq)
     else open_ (open_rU fseq)) ;;
  let fmt := guess_seqformat fseq in
  let fmt := if fmt =? "" then "fasta" else fmt in
  LOG_info ("Checking file " ++ fseq ++ " (format " ++ fmt ++ ")") ;;
  records <- parse fhandle fmt ;;
  for_records records (check_record opts regexp print_file_prefix fseq fmt) ;;
  when (negb (handle_eqb fhandle sys_stdin)) (close fhandle).

(** Lines 145-147, the body of the first [for fseq in seqfiles_arg]. *)
Definition check_exists (fseq : string) : M unit :=
  missing <-
    (if negb (fseq =? "-") then
       found <- path_exists fseq ;; ret (negb found)
     else ret false) ;;
  when missing
    (LOG_fatal ("input file " ++ fseq ++ " does not exist." ++ nl) ;;
     sys_exit 1).

(** Lines 118-141 of [main]: the verbosity, the arguments, the pattern
    and its compilation. *)
Definition compile_pattern (opts : Values) (args : list string)
  : M RegexObject :=
  when (verbose opts) (LOG_setLevel logging.INFO) ;;
  when (debug opts) (LOG_setLevel logging.DEBUG) ;;
  when (length args <? 2)%nat
    (parser_error "Need pattern and at least one seqfile as argument" ;;
     sys_exit 1) ;;
  (* first arg is pattern. rest are files *)
  pattern_arg <-
    match args with
    | pattern_arg :: _ => ret pattern_arg
    | [] => raise (Exception "IndexError" "list index out of range")
    end ;;
  pattern_arg <-
    (if revcomp opts then
       pattern_arg <- Seq_reverse_complement pattern_arg ;;
       LOG_info ("Pattern after reverse complement: " ++ pattern_arg) ;;
       ret pattern_arg
     else ret pattern_arg) ;;
  let seqfiles_arg := tl args in
  LOG_debug ("args=" ++ str_list args) ;;
  LOG_debug ("pattern_arg=" ++ pattern_arg) ;;
  LOG_debug ("seqfiles_arg=" ++ str_list seqfiles_arg) ;;
  re_compile pattern_arg (ignore_case opts).

(** [main], from the values [parser.parse_args()] returns.  When [main]
    returns, the script logs one more line at the debug level and ends
    with the status 0. *)
Definition main (opts : Values) (args : list string) : M unit :=
  regexp <- compile_pattern opts args ;;
  let seqfiles_arg := tl args in
  for_each seqfiles_arg check_exists ;;
  let print_file_prefix := (1 <? length seqfiles_arg)%nat in
  for_each seqfiles_arg (search_file opts regexp print_file_prefix).

End Script.

(** The values of the options when none is given ([cmdline_parser]). *)
Definition cmdline_defaults : Values :=
  {| search_in := "id"; verbose := false; debug := false; revcomp := false;
     ignore_case := false; invert_match := false |}.

(** ** Predicates on characters and file names used to state the results *)

(** [c] occurs in [s]. *)
Fixpoint occurs (c : ascii) (s : string) : bool :=
  match s with
  | EmptyString => false
  | String a s' => Ascii.eqb a c || occurs c s'
  end.

(** [s] has a character other than ".". *)
Fixpoint has_name (s : string) : bool :=
  match s with
  | EmptyString => false
  | String a s' => negb (Ascii.eqb a ".") || has_name s'
  end.

(** ** Judgements on pieces of the script *)

Section Judgements.

Context {World : Type}.

(** Every event of [m] satisfies [P], whatever the state [m] starts in. *)
Definition emits {A} (P : event -> Prop) (m : Script World A) : Prop :=
  forall s, Forall P (trace (m s)).

(** [m] leaves the world and the level of the logger as they are. *)
Definition keeps_world {A} (m : Script World A) : Prop :=
  forall s, world (final (m s)) = world s.

(** Two states that differ in their clocks only. *)
Definition same_but_clock (s1 s2 : state World) : Prop :=
  world s1 = world s2 /\ level s1 = level s2.

(** What is left of a trace when the log lines, which carry the time,
    are taken out. *)
Fixpoint unlogged (t : list event) : list event :=
  match t with
  | [] => []
  | Stderr _ :: t' => unlogged t'
  | e :: t' => e :: unlogged t'
  end.

(** [m] does not look at the clock: from two states that differ in
    their clocks only it ends the same way, in two such states, and apart
    from the log lines it does the same. *)
Definition clock_blind {A} (m : Script World A) : Prop :=
  forall s1 s2, same_but_clock s1 s2 ->
    outcome (m s1) = outcome (m s2) /\
    same_but_clock (final (m s1)) (final (m s2)) /\
    unlogged (trace (m s1)) = unlogged (trace (m s2)).

End Judgements.

(** ** Classes of events *)

(** The pattern is transformed or compiled. *)
Definition pattern_event (e : event) : bool :=
  match e with
  | RevComp _ | Compile _ _ => true
  | _ => false
  end.

(** A file is opened, read or closed. *)
Definition file_event (e : event) : bool :=
  match e with
  | Open _ | Parse _ _ | Close _ => true
  | _ => false
  end.

Definition is_stdout (e : event) : bool :=
  match e with
  | Stdout _ => true
  | _ => false
  end.

(** ** The output format *)

Definition header (fmt : string) (record : SeqRecord.t) : string :=
  if fmt =? "fasta" then SeqRecord.description record
  else SeqRecord.id record.

(** The two lines of a record, each with the prefix and closed by a
    newline. *)
Definition two_lines (prefix fmt : string) (record : SeqRecord.t) : string :=
  (prefix ++ ">" ++ header fmt record) ++ nl
  ++ (prefix ++ SeqRecord.seq record) ++ nl.

(** ** The one open handle

    [open_handle cur t] follows the file objects through a trace: [cur]
    is the handle that is open and not closed yet.  The answer is [None]
    when a handle is opened while another is open, when a handle is
    closed that is not the open one, or when standard input is closed. *)
Fixpoint open_handle (cur : option handle) (t : list event)
  : option (option handle) :=
  match t with
  | [] => Some cur
  | Open h :: t' =>
      match cur with
      | None => open_handle (Some h) t'
      | Some _ => None
      end
  | Close h :: t' =>
      match cur with
      | Some h' => if handle_eqb h h' && negb (handle_eqb h sys_stdin)
                   then open_handle None t' else None
      | None => None
      end
  | _ :: t' => open_handle cur t'
  end.

(** ** Selection of records *)

Section Selection.

Context {World : Type} `{Collaborators World}.

(** [regexp.search(target)] answers a match object. *)
Definition is_match (regexp : RegexObject) (target : string) : bool :=
  match search regexp target with
  | Some _ => true
  | None => false
  end.

(** The string searched, for the two values optparse lets through as
    [--search-in]. *)
Definition target_of (search_in fmt : string) (record : SeqRecord.t) : string :=
  if search_in =? "seq" then SeqRecord.seq record
  else if fmt =? "fasta" then SeqRecord.description record
  else SeqRecord.id record.

End Selection.

(** The prefix of the output lines: none when exactly one file was
    given, the name of the file and a colon otherwise. *)
Definition prefix_of (seqfiles_arg : list string) (fseq : string) : string :=
  match seqfiles_arg with
  | [_] => ""
  | _ => fseq ++ ":"
  end.

(** The file object [main] reads a file through. *)
Definition handle_of (fseq : string) : handle :=
  if fseq =? "-" then sys_stdin
  else if Py.slice_from fseq (-3) =? ".gz" then gzip_open fseq
  else open_rU fseq.

(** The events that order a run: on the pattern or on a file. *)
Definition staged (e : event) : bool := pattern_event e || file_event e.

Section Endings.

Context {World : Type}.

(** [m] does not leave through [sys.exit]. *)
Definition never_exits {A} (m : Script World A) : Prop :=
  forall s code, outcome (m s) <> SystemExit code.

End Endings.

(** What optparse prints of a usage error. *)
Definition usage_error {World : Type} `{Collaborators World} : list event :=
  [ Stderr ("Usage: " ++ usage ++ nl ++ nl);
    Stderr (prog ++ ": error: "
            ++ "Need pattern and at least one seqfile as argument" ++ nl) ].

(** An event that neither writes to standard output nor touches a file. *)
Definition quiet (e : event) : Prop :=
  file_event e = false /\ is_stdout e = false.

(** A text on standard output is the two lines of a record of one of
    the files, with the prefix that goes with the number of files. *)
Definition well_formed (seqfiles_arg : list string) (text : string) : Prop :=
  exists fseq record,
    In fseq seqfiles_arg /\
    text = two_lines (prefix_of seqfiles_arg fseq) (guess_seqformat fseq) record.

(** An event that neither opens nor closes a file. *)
Definition no_handle (e : event) : Prop :=
  match e with
  | Open _ | Close _ => False
  | _ => True
  end.

Section Handles.

Context {World : Type}.

(** [m] keeps to one open handle: started with no handle open it
    follows the discipline of [open_handle], and when it goes on to its
    end no handle is left open. *)
Definition one_handle {A} (m : Script World A) : Prop :=
  forall s, exists cur,
    open_handle None (trace (m s)) = Some cur /\
    forall a, outcome (m s) = Return a -> cur = None.

End Handles.

(** ** A small world to run the script in

    Three files, a literal-substring stand-in for [re], and the IUPAC
    complement table of [Bio.Seq] for DNA. *)
Module Sample.

Definition seq1 : SeqRecord.t :=
  {| SeqRecord.id := "seq1"; SeqRecord.description := "seq1 desc";
     SeqRecord.seq := "ACGT" |}.

Definition seq2 : SeqRecord.t :=
  {| SeqRecord.id := "seq2"; SeqRecord.description := "seq2 other";
     SeqRecord.seq := "TTTT" |}.

Definition truncated : exn :=
  Exception "ValueError" "Sequence data ends before the record is complete".

(** What a parser yields from each file. *)
Definition contents (fseq : string) : stream :=
  if fseq =? "a.fa" then Yield seq1 (Yield seq2 StopIteration)
  else if fseq =? "b.gb" then Yield seq2 StopIteration
  else if fseq =? "bad.fa" then Yield seq1 (Raise truncated)
  else StopIteration.

Definition on_disk (fseq : string) : bool :=
  (fseq =? "a.fa") || (fseq =? "b.gb") || (fseq =? "bad.fa").

(** The world is whether standard input has been read to its end. *)
Definition World : Type := bool.

Definition parse (h : handle) (fmt : string) (w : World) : stream * World :=
  match h with
  | sys_stdin => (if w then StopIteration else Yield seq2 StopIteration, true)
  | gzip_open fseq => (contents fseq, w)
  | open_rU fseq => (contents fseq, w)
  end.

Definition complement (c : ascii) : ascii :=
  let table :=
    [ ("A", "T"); ("C", "G"); ("G", "C"); ("T", "A"); ("M", "K"); ("R", "Y");
      ("W", "W"); ("S", "S"); ("Y", "R"); ("K", "M"); ("V", "B"); ("H", "D");
      ("D", "H"); ("B", "V"); ("X", "X"); ("N", "N") ]%char in
  match find (fun kv => Ascii.eqb (fst kv) c) table with
  | Some kv => snd kv
  | None => c
  end.

Fixpoint revcomp_onto (s acc : string) : string :=
  match s with
  | EmptyString => acc
  | String c s' => revcomp_onto s' (String (complement c) acc)
  end.

Definition find_literal (regexp : RegexObject) (target : string)
  : option (nat * nat) :=
  let fold := if IGNORECASE regexp then Py.lower else fun s => s in
  match String.index 0 (fold (pattern regexp)) (fold target) with
  | Some n => Some (n, n + String.length (pattern regexp))
  | None => None
  end.

#[export] Instance collaborators : Collaborators World := {|
  prog := "seqgrep.py";
  str_list := String.concat ", ";
  os_path_exists := fun _ => on_disk;
  open_error := fun _ _ => None;
  SeqIO_parse := parse;
  reverse_complement := fun s => inr (revcomp_onto s "");
  re_error := fun p =>
    if p =? "(" then Some (Exception "error" "unbalanced parenthesis")
    else None;
  re_find := find_literal
|}.

(** The time of every log line. *)
Definition noon : nat -> string := fun _ => "12:00:00".

Definition run (opts : Values) (args : list string)
  : result unit * state World * list event :=
  main opts args (boot false noon).

(** The pattern [desc], compiled. *)
Definition desc : RegexObject := {| pattern := "desc"; IGNORECASE := false |}.

(** The options of [--revcomp]. *)
Definition with_revcomp : Values :=
  {| search_in := "seq"; verbose := false; debug := false; revcomp := true;
     ignore_case := false; invert_match := false |}.

End Sample.

(** * The rest of the script *)

(** ** A run, read off its arguments and the world

    What [main] writes and how it ends, as functions of the options, the
    arguments and the world, without the trace. *)

(** The exception that ends a stream of records, if one does. *)
Fixpoint raised (records : stream) : option exn :=
  match records with
  | Yield _ rest => raised rest
  | StopIteration => None
  | Raise e => Some e
  end.

Section Reading.

Context {World : Type} `{Collaborators World}.

(** What lines 129-141 make of the pattern argument: the compiled
    pattern, or the exception of [reverse_complement] or [re.compile]. *)
Definition compiled_pattern (opts : Values) (pattern_arg : string)
  : exn + RegexObject :=
  match (if revcomp opts then reverse_complement pattern_arg
         else inr pattern_arg) with
  | inl e => inl e
  | inr p =>
      match re_error p with
      | Some e => inl e
      | None => inr {| pattern := p; IGNORECASE := ignore_case opts |}
      end
  end.

(** Every file is there, or is standard input. *)
Definition all_exist (w : World) (seqfiles_arg : list string) : bool :=
  forallb (fun fseq => (fseq =? "-") || os_path_exists w fseq) seqfiles_arg.

(** The exception [gzip.open] or [open] raises on a name, if any;
    standard input is not opened. *)
Definition open_failure (w : World) (fseq : string) : option exn :=
  if fseq =? "-" then None else open_error w (handle_of fseq).

(** A record is printed. *)
Definition selected (opts : Values) (regexp : RegexObject) (fmt : string)
    (record : SeqRecord.t) : bool :=
  xorb (is_match regexp (target_of (search_in opts) fmt record))
       (invert_match opts).

(** What the files write, one after the other, until one cannot be
    opened or read to its end. *)
Fixpoint search_output (opts : Values) (regexp : RegexObject)
    (print_file_prefix : bool) (seqfiles_arg : list string) (w : World)
  : list string :=
  match seqfiles_arg with
  | [] => []
  | fseq :: rest =>
      match open_failure w fseq with
      | Some _ => []
      | None =>
          let fmt := guess_seqformat fseq in
          let '(records, w') := SeqIO_parse (handle_of fseq) fmt w in
          (map (two_lines (if print_file_prefix then fseq ++ ":" else "") fmt)
               (filter (selected opts regexp fmt) (yielded records))
           ++ if exhausted records
              then search_output opts regexp print_file_prefix rest w'
              else [])%list
      end
  end.

(** The first exception of the files, in their order: of an [open] or
    of a parser. *)
Fixpoint search_failure (seqfiles_arg : list string) (w : World)
  : option exn :=
  match seqfiles_arg with
  | [] => None
  | fseq :: rest =>
      match open_failure w fseq with
      | Some e => Some e
      | None =>
          let '(records, w') :=
            SeqIO_parse (handle_of fseq) (guess_seqformat fseq) w in
          match raised records with
          | Some e => Some e
          | None => search_failure rest w'
          end
      end
  end.

End Reading.

(** An event of the preparation of the pattern: a log line, the reverse
    complement or the compilation. *)
Definition pattern_stage (e : event) : Prop :=
  match e with
  | Stderr _ | RevComp _ | Compile _ _ => True
  | _ => False
  end.

(** The seven formats [guess_seqformat] knows. *)
Definition formats : list string :=
  ["fasta"; "clustal"; "embl"; "genbank"; "phylip"; "pir"; "stockholm"].

(** ** Verbosity *)

Section Verbosity.

Context {World : Type} `{Collaborators World}.

(** Two pieces of the script that differ in what they log only: from
    two states with the same world they end the same way, leave the same
    world, and apart from the log lines they do the same. *)
Definition log_blind {A} (m1 m2 : Script World A) : Prop :=
  forall s1 s2, world s1 = world s2 ->
    outcome (m1 s1) = outcome (m2 s2) /\
    world (final (m1 s1)) = world (final (m2 s2)) /\
    unlogged (trace (m1 s1)) = unlogged (trace (m2 s2)).

(** Two sets of options that differ in [--verbose] and [--debug] only. *)
Definition same_but_verbosity (opts1 opts2 : Values) : Prop :=
  search_in opts1 = search_in opts2 /\
  revcomp opts1 = revcomp opts2 /\
  ignore_case opts1 = ignore_case opts2 /\
  invert_match opts1 = invert_match opts2.

(** From a state that satisfies [I], [m] ends in a state that satisfies
    [I] and every event of [m] satisfies [P]. *)
Definition under {A} (I : state World -> Prop) (P : event -> Prop)
    (m : Script World A) : Prop :=
  forall s, I s -> I (final (m s)) /\ Forall P (trace (m s)).

(** A text on standard error that is shown at the level WARN: the usage
    error of optparse, or a log line of the level CRITICAL. *)
Definition loud (text : string) : Prop :=
  In (Stderr text) usage_error \/
  exists time msg, text = "CRITICAL [" ++ time ++ "]: " ++ msg ++ nl.

Definition loud_event (e : event) : Prop :=
  match e with
  | Stderr text => loud text
  | _ => True
  end.

End Verbosity.

(** ** The files a run touches *)

Definition is_exists (e : event) : bool :=
  match e with
  | Exists _ => true
  | _ => false
  end.

(** An event on a file is on one of the files listed, through the file
    object its name calls for and in the format guessed from its name;
    standard input is not looked for, opened or closed. *)
Definition on_listed_file (seqfiles_arg : list string) (e : event) : Prop :=
  match e with
  | Exists fseq => In fseq seqfiles_arg /\ fseq <> "-"
  | Open h | Close h =>
      exists fseq, In fseq seqfiles_arg /\ fseq <> "-" /\ h = handle_of fseq
  | Parse h fmt =>
      exists fseq,
        In fseq seqfiles_arg /\ h = handle_of fseq /\
        fmt = guess_seqformat fseq
  | _ => True
  end.

(** ** The command line

    [cmdline_parser] declares the options; [parser.parse_args()] of
    optparse reads the arguments of the command line against them. *)

Module optparse.

Inductive Action := store | store_true | help.

(** An option as [add_option] makes it.  The empty option string the
    script gives for an option without a short form is dropped by
    optparse. *)
Record Option_ := {
  short_opt : option string;
  long_opt : string;
  action : Action;
  dest : option string;
  default_ : option string;
  choices : option (list string)
}.

(** The errors [parse_args] hands to [parser.error]. *)
Inductive Error :=
| no_such_option (opt : string)
| ambiguous_option (opt : string)
| requires_argument (opt : string)
| takes_no_value (opt : string)
| invalid_choice (opt value : string).

(** How [parse_args] ends: with the values and the positional
    arguments, with the help ([-h], status 0), or with a usage error
    (status 2). *)
Inductive Parsed :=
| Args (values : Values) (args : list string)
| Help
| Usage (e : Error).

Definition takes_value (optn : Option_) : bool :=
  match action optn with
  | store => true
  | _ => false
  end.

(** [setattr(values, dest, value)] for the destinations of the script. *)
Definition set_string (values : Values) (dest value : string) : Values :=
  if dest =? "search_in" then
    {| search_in := value; verbose := verbose values; debug := debug values;
       revcomp := revcomp values; ignore_case := ignore_case values;
       invert_match := invert_match values |}
  else values.

Definition set_true (values : Values) (dest : string) : Values :=
  {| search_in := search_in values;
     verbose := (dest =? "verbose") || verbose values;
     debug := (dest =? "debug") || debug values;
     revcomp := (dest =? "revcomp") || revcomp values;
     ignore_case := (dest =? "ignore_case") || ignore_case values;
     invert_match := (dest =? "invert_match") || invert_match values |}.

(** [option.process(opt, value, values, parser)]: the value of an
    option with choices is checked, then the action is taken. *)
Definition process (optn : Option_) (opt : string) (value : option string)
    (values : Values) : Parsed :=
  match action optn, dest optn, value with
  | store, Some d, Some v =>
      match choices optn with
      | Some cs =>
          if existsb (String.eqb v) cs then Args (set_string values d v) []
          else Usage (invalid_choice opt v)
      | None => Args (set_string values d v) []
      end
  | store_true, Some d, _ => Args (set_true values d) []
  | help, _, _ => Help
  | _, _, _ => Args values []
  end.

(** [arg.split("=", 1)] when ["=" in arg]. *)
Fixpoint split_equals (arg : string) : option (string * string) :=
  match arg with
  | EmptyString => None
  | String c rest =>
      if Ascii.eqb c "=" then Some ("", rest)
      else match split_equals rest with
           | Some (opt, next_arg) => Some (String c opt, next_arg)
           | None => None
           end
  end.

(** [_match_abbrev(s, wordmap)]: the word itself, or the one word it
    abbreviates. *)
Definition match_abbrev (s : string) (words : list string)
  : Error + string :=
  if existsb (String.eqb s) words then inr s
  else match filter (String.prefix s) words with
       | [word] => inr word
       | [] => inl (no_such_option s)
       | _ => inl (ambiguous_option s)
       end.

Definition find_long (options : list Option_) (opt : string)
  : option Option_ :=
  find (fun o => long_opt o =? opt) options.

Definition find_short (options : list Option_) (opt : string)
  : option Option_ :=
  find (fun o => match short_opt o with
                 | Some s => s =? opt
                 | None => false
                 end) options.

(** [_process_long_opt]: [rargs] is what follows the argument.  The
    answer carries the arguments that are left. *)
Definition process_long_opt (options : list Option_) (arg : string)
    (rargs : list string) (values : Values) : Parsed :=
  let '(opt, rargs, had_explicit_value) :=
    match split_equals arg with
    | Some (opt, next_arg) => (opt, next_arg :: rargs, true)
    | None => (arg, rargs, false)
    end in
  match match_abbrev opt (map long_opt options) with
  | inl e => Usage e
  | inr opt =>
      match find_long options opt with
      | None => Usage (no_such_option opt)
      | Some optn =>
          if takes_value optn then
            match rargs with
            | [] => Usage (requires_argument opt)
            | value :: rargs =>
                match process optn opt (Some value) values with
                | Args values _ => Args values rargs
                | r => r
                end
            end
          else if had_explicit_value then Usage (takes_no_value opt)
          else
            match process optn opt None values with
            | Args values _ => Args values rargs
            | r => r
            end
      end
  end.

(** [_process_short_opts]: [cluster] is what is left of the argument
    after its dash and the options read so far. *)
Fixpoint process_short_opts (options : list Option_) (cluster : string)
    (rargs : list string) (values : Values) : Parsed :=
  match cluster with
  | EmptyString => Args values rargs
  | String ch cluster' =>
      let opt := String "-" (String ch "") in
      match find_short options opt with
      | None => Usage (no_such_option opt)
      | Some optn =>
          if takes_value optn then
            let rargs :=
              match cluster' with
              | EmptyString => rargs
              | _ => cluster' :: rargs
              end in
            match rargs with
            | [] => Usage (requires_argument opt)
            | value :: rargs =>
                match process optn opt (Some value) values with
                | Args values _ => Args values rargs
                | r => r
                end
            end
          else
            match process optn opt None values with
            | Args values _ =>
                process_short_opts options cluster' rargs values
            | r => r
            end
      end
  end.

(** [_process_args], with interspersed arguments allowed: [largs] are
    the positional arguments met so far.  Every turn of the loop takes
    at least one argument off [rargs]; [fuel] bounds the number of
    turns, and [None] says that it ran out. *)
Fixpoint process_args (fuel : nat) (options : list Option_)
    (largs rargs : list string) (values : Values) : option Parsed :=
  match fuel with
  | O => None
  | S fuel' =>
      match rargs with
      | [] => Some (Args values largs)
      | arg :: rest =>
          if arg =? "--" then Some (Args values (largs ++ rest)%list)
          else if Py.slice_to arg 2 =? "--" then
            match process_long_opt options arg rest values with
            | Args values rargs' =>
                process_args fuel' options largs rargs' values
            | r => Some r
            end
          else if (Py.slice_to arg 1 =? "-") && (1 <? String.length arg)%nat
          then
            match process_short_opts options (Py.slice_from arg 1) rest
                    values with
            | Args values rargs' =>
                process_args fuel' options largs rargs' values
            | r => Some r
            end
          else process_args fuel' options (largs ++ [arg])%list rest values
      end
  end.

(** [get_default_values]: the default of every destination, [None]
    (false) where the option gives none. *)
Definition get_default_values (options : list Option_) : Values :=
  fold_left
    (fun values optn =>
       match dest optn, default_ optn with
       | Some d, Some v => set_string values d v
       | _, _ => values
       end)
    options
    {| search_in := ""; verbose := false; debug := false; revcomp := false;
       ignore_case := false; invert_match := false |}.

(** [parse_args(args)], [args] being [sys.argv[1:]]. *)
Definition parse_args (options : list Option_) (argv : list string)
  : option Parsed :=
  process_args (S (length argv)) options [] argv (get_default_values options).

End optparse.

(** [cmdline_parser]: the help option optparse adds, and the six
    options of the script. *)
Definition cmdline_parser : list optparse.Option_ :=
  let flag long dest :=
    {| optparse.short_opt := None; optparse.long_opt := long;
       optparse.action := optparse.store_true; optparse.dest := Some dest;
       optparse.default_ := None; optparse.choices := None |} in
  [ {| optparse.short_opt := Some "-h"; optparse.long_opt := "--help";
       optparse.action := optparse.help; optparse.dest := None;
       optparse.default_ := None; optparse.choices := None |};
    {| optparse.short_opt := Some "-s"; optparse.long_opt := "--search-in";
       optparse.action := optparse.store; optparse.dest := Some "search_in";
       optparse.default_ := Some "id";
       optparse.choices := Some ["seq"; "id"] |};
    flag "--verbose" "verbose";
    flag "--debug" "debug";
    flag "--revcomp" "revcomp";
    {| optparse.short_opt := Some "-i"; optparse.long_opt := "--ignore-case";
       optparse.action := optparse.store_true;
       optparse.dest := Some "ignore_case";
       optparse.default_ := None; optparse.choices := None |};
    {| optparse.short_opt := Some "-v"; optparse.long_opt := "--invert-match";
       optparse.action := optparse.store_true;
       optparse.dest := Some "invert_match";
       optparse.default_ := None; optparse.choices := None |} ].

(** An argument that optparse takes for a positional argument: it does
    not begin with a dash, or it is the dash alone. *)
Definition positional (arg : string) : bool :=
  match arg with
  | String "-" (String _ _) => false
  | _ => true
  end.


(** The destination a flag of the script sets. *)
Definition flags : list (string * string) :=
  [ ("--verbose", "verbose"); ("--debug", "debug"); ("--revcomp", "revcomp");
    ("-i", "ignore_case"); ("--ignore-case", "ignore_case");
    ("-v", "invert_match"); ("--invert-match", "invert_match") ].

(** An answer of [parse_args] with a flag set in its values. *)
Definition with_flag (dest : string) (r : optparse.Parsed) : optparse.Parsed :=
  match r with
  | optparse.Args values args => optparse.Args (optparse.set_true values dest) args
  | _ => r
  end.

(** The place to search in is one of the two choices of [--search-in]. *)
Definition valid (values : Values) : Prop :=
  search_in values = "seq" \/ search_in values = "id".

(** ** More options to run the script with *)
Module SampleOptions.

(** [--verbose --debug] *)
Definition chatty : Values :=
  {| search_in := "id"; verbose := true; debug := true; revcomp := false;
     ignore_case := false; invert_match := false |}.

(** A place to search in that optparse would not let through. *)
Definition name_search : Values :=
  {| search_in := "name"; verbose := false; debug := false; revcomp := false;
     ignore_case := false; invert_match := false |}.

End SampleOptions.

(** * Results *)

(** ** Strings *)


Lemma length_app (s1 s2 : string) :
  String.length (s1 ++ s2) = (String.length s1 + String.length s2)%nat.
Proof. induction s1 as [|c s1 IH]; simpl; [reflexivity | now rewrite IH]. Qed.

Lemma app_assoc_str (s1 s2 s3 : string) : (s1 ++ s2) ++ s3 = s1 ++ s2 ++ s3.
Proof. induction s1 as [|c s1 IH]; simpl; [reflexivity | now rewrite IH]. Qed.

Lemma app_empty_r (s : string) : s ++ "" = s.
Proof. induction s as [|c s IH]; simpl; [reflexivity | now rewrite IH]. Qed.

Lemma occurs_app (c : ascii) (s1 s2 : string) :
  occurs c (s1 ++ s2) = occurs c s1 || occurs c s2.
Proof.
  induction s1 as [|a s1 IH]; simpl; [reflexivity|].
  now rewrite IH, orb_assoc.
Qed.

(** Every string is cut at the last occurrence of a character, if it has one. *)
Lemma cut_at_last (c : ascii) (s : string) :
  occurs c s = false \/
  exists s1 s2, s = s1 ++ String c s2 /\ occurs c s2 = false.
Proof.
  induction s as [|a s IH]; simpl; [now left|].
  destruct IH as [IH | (s1 & s2 & -> & Hs2)].
  - destruct (Ascii.eqb_spec a c) as [-> | Hac]; simpl.
    + right. exists "", s. now split.
    + now left.
  - right. exists (String a s1), s2. now split.
Qed.

Lemma drop_length_app (s1 s2 : string) :
  Py.drop (String.length s1) (s1 ++ s2) = s2.
Proof. induction s1 as [|c s1 IH]; simpl; [now destruct s2 | exact IH]. Qed.

Lemma slice_from_app (s1 s2 : string) :
  Py.slice_from (s1 ++ s2) (Py.len s1) = s2.
Proof.
  unfold Py.slice_from, Py.clip, Py.len.
  rewrite length_app.
  replace (Z.of_nat (String.length s1) <? 0)%Z with false by (symmetry; apply Z.ltb_ge; lia).
  rewrite Z.min_l by lia. rewrite Nat2Z.id. apply drop_length_app.
Qed.

Lemma slice_from_1_cons (c : ascii) (s : string) :
  Py.slice_from (String c s) 1 = s.
Proof.
  unfold Py.slice_from, Py.clip, Py.len. simpl String.length.
  replace (1 <? 0)%Z with false by reflexivity.
  rewrite Z.min_l by lia. reflexivity.
Qed.

Lemma get_app_right (s1 s2 : string) (n : nat) :
  String.get (String.length s1 + n) (s1 ++ s2) = String.get n s2.
Proof. induction s1 as [|c s1 IH]; simpl; [reflexivity | exact IH]. Qed.

Lemma item_app_right (s1 s2 : string) (i : Z) :
  (0 <= i)%Z -> Py.item (s1 ++ s2) (Py.len s1 + i) = Py.item s2 i.
Proof.
  intros Hi. unfold Py.item, Py.len.
  replace (Z.of_nat (String.length s1) + i <? 0)%Z with false by (symmetry; apply Z.ltb_ge; lia).
  replace (i <? 0)%Z with false by (symmetry; apply Z.ltb_ge; lia).
  rewrite Z2Nat.inj_add, Nat2Z.id by lia. apply get_app_right.
Qed.

(** *** [rfind] *)

Lemma rfind_from_app (c : ascii) (s1 s2 : string) (i acc : Z) :
  Py.rfind_from c (s1 ++ s2) i acc
  = Py.rfind_from c s2 (i + Py.len s1) (Py.rfind_from c s1 i acc).
Proof.
  revert i acc. induction s1 as [|a s1 IH]; intros i acc; simpl.
  - unfold Py.len; simpl. now rewrite Z.add_0_r.
  - rewrite IH. f_equal. unfold Py.len; simpl String.length. lia.
Qed.

Lemma rfind_from_absent (c : ascii) (s : string) (i acc : Z) :
  occurs c s = false -> Py.rfind_from c s i acc = acc.
Proof.
  revert i acc. induction s as [|a s IH]; intros i acc Hs; simpl in *; [reflexivity|].
  apply orb_false_iff in Hs as [Ha Hs]. rewrite Ha. now apply IH.
Qed.

Lemma rfind_from_range (c : ascii) (s : string) (i acc : Z) :
  (acc < i)%Z ->
  (Py.rfind_from c s i acc = acc \/
   i <= Py.rfind_from c s i acc < i + Py.len s)%Z.
Proof.
  revert i acc. induction s as [|a s IH]; intros i acc Hacc; simpl; [now left|].
  unfold Py.len; simpl String.length. rewrite Nat2Z.inj_succ.
  destruct (Ascii.eqb a c).
  - right. destruct (IH (i + 1)%Z i ltac:(lia)) as [-> | Hr]; unfold Py.len in *; lia.
  - destruct (IH (i + 1)%Z acc ltac:(lia)) as [-> | Hr]; [now left | right].
    unfold Py.len in *; lia.
Qed.

Lemma rfind_lt_len (c : ascii) (s : string) : (Py.rfind c s < Py.len s)%Z.
Proof.
  unfold Py.rfind.
  destruct (rfind_from_range c s 0 (-1) ltac:(lia)) as [-> | Hr]; unfold Py.len in *; lia.
Qed.

(** The last occurrence of [c] is where the string is cut. *)
Lemma rfind_cut (c : ascii) (s1 s2 : string) :
  occurs c s2 = false -> Py.rfind c (s1 ++ String c s2) = Py.len s1.
Proof.
  intros Hs2. unfold Py.rfind. rewrite rfind_from_app. simpl.
  rewrite Ascii.eqb_refl. rewrite rfind_from_absent by assumption. lia.
Qed.

Lemma rfind_app_absent (c : ascii) (s1 s2 : string) :
  occurs c s2 = false -> Py.rfind c (s1 ++ s2) = Py.rfind c s1.
Proof.
  intros Hs2. unfold Py.rfind. rewrite rfind_from_app.
  now apply rfind_from_absent.
Qed.


(** *** [os.path.splitext] *)

Lemma len_app (s1 s2 : string) : Py.len (s1 ++ s2) = (Py.len s1 + Py.len s2)%Z.
Proof. unfold Py.len. rewrite length_app. lia. Qed.

Lemma skip_leading_dots_component (pre st rest : string) :
  Py.skip_leading_dots (pre ++ st ++ rest) (Py.len pre) (String.length st)
  = has_name st.
Proof.
  revert pre. induction st as [|c st IH]; intros pre; simpl; [reflexivity|].
  replace (Py.len pre) with (Py.len pre + 0)%Z at 1 by lia.
  rewrite item_app_right by lia. cbn [Py.item Z.ltb Z.compare Z.to_nat String.get].
  destruct (Ascii.eqb c "."); simpl; [|reflexivity].
  specialize (IH (pre ++ String c "")).
  rewrite app_assoc_str in IH. simpl in IH.
  rewrite len_app in IH. exact IH.
Qed.

Lemma run_directory (st : Ext.scan) (dir : string) :
  Ext.run st (dir ++ "/") = Ext.start.
Proof.
  revert st. induction dir as [|c dir IH]; intros st; simpl;
    [reflexivity | apply IH].
Qed.

(** A path is a directory part, empty or closed by "/", and a last
    component without "/". *)
Lemma last_component (p : string) :
  exists pre b,
    p = pre ++ b /\ occurs "/" b = false /\
    Py.rfind "/" p = (Py.len pre - 1)%Z /\
    Ext.run Ext.start pre = Ext.start.
Proof.
  destruct (cut_at_last "/" p) as [Hp | (s1 & s2 & -> & Hs2)].
  - exists "", p. repeat split; [assumption|].
    unfold Py.rfind. now rewrite rfind_from_absent.
  - exists (s1 ++ "/"), s2. rewrite app_assoc_str. repeat split.
    + assumption.
    + rewrite rfind_cut by assumption. rewrite len_app. unfold Py.len; simpl. lia.
    + apply run_directory.
Qed.

Lemma run_app (st : Ext.scan) (s1 s2 : string) :
  Ext.run st (s1 ++ s2) = Ext.run (Ext.run st s1) s2.
Proof. revert st. induction s1 as [|c s1 IH]; intros st; simpl; [reflexivity | apply IH]. Qed.

Lemma run_named (st : Ext.scan) (s : string) :
  occurs "/" s = false ->
  Ext.named (Ext.run st s) = Ext.named st || has_name s.
Proof.
  revert st. induction s as [|c s IH]; intros st Hs; simpl in *.
  - now rewrite orb_false_r.
  - apply orb_false_iff in Hs as [Hc Hs]. rewrite IH by assumption.
    unfold Ext.step. rewrite Hc.
    destruct (Ascii.eqb c "."); simpl; [reflexivity|].
    now rewrite orb_true_r.
Qed.

Lemma run_plain (st : Ext.scan) (s : string) :
  occurs "/" s = false -> occurs "." s = false ->
  Ext.ext (Ext.run st s) = option_map (fun e => e ++ s) (Ext.ext st).
Proof.
  revert st. induction s as [|c s IH]; intros st Hsep Hdot; simpl in *.
  - destruct (Ext.ext st); simpl; [now rewrite app_empty_r | reflexivity].
  - apply orb_false_iff in Hsep as [Hc1 Hsep].
    apply orb_false_iff in Hdot as [Hc2 Hdot].
    rewrite IH by assumption. unfold Ext.step. rewrite Hc1, Hc2. simpl.
    destruct (Ext.ext st); simpl; [|reflexivity].
    now rewrite app_assoc_str.
Qed.

(** The extension [os.path.splitext] cuts off is the final extension. *)
Lemma splitext_final_extension (p : string) :
  Py.slice_from (snd (Py.splitext p)) 1
  = match final_extension p with Some e => e | None => "" end.
Proof.
  destruct (last_component p) as (pre & b & -> & Hb & Hsep & Hpre).
  unfold final_extension. rewrite run_app, Hpre.
  unfold Py.splitext. rewrite Hsep.
  destruct (cut_at_last "." b) as [Hdot | (st & e & -> & He)].
  - rewrite rfind_app_absent by assumption.
    pose proof (rfind_lt_len "." pre) as Hlt.
    replace (Py.rfind "." pre >? Py.len pre - 1)%Z with false
      by (symmetry; rewrite Z.gtb_ltb; apply Z.ltb_ge; lia).
    rewrite run_plain by assumption. reflexivity.
  - rewrite occurs_app in Hb. apply orb_false_iff in Hb as [Hst Hb].
    simpl in Hb. rename Hb into Hesep.
    rewrite <- !app_assoc_str. rewrite rfind_cut by assumption.
    rewrite len_app.
    replace (Py.len pre + Py.len st >? Py.len pre - 1)%Z with true
      by (symmetry; rewrite Z.gtb_ltb; apply Z.ltb_lt; unfold Py.len; lia).
    replace (Py.len pre + Py.len st - (Py.len pre - 1 + 1))%Z with (Py.len st) by lia.
    replace (Py.len pre - 1 + 1)%Z with (Py.len pre) by lia.
    unfold Py.len at 2. rewrite Nat2Z.id.
    rewrite app_assoc_str. rewrite skip_leading_dots_component.
    rewrite run_app. simpl Ext.run.
    rewrite run_plain by assumption.
    unfold Ext.step; simpl.
    rewrite run_named by assumption. simpl.
    destruct (has_name st); simpl.
    + rewrite <- app_assoc_str. rewrite <- len_app. rewrite slice_from_app.
      apply slice_from_1_cons.
    + reflexivity.
Qed.

Lemma getitem_table (k : string) :
  match Py.getitem ext_to_fmt_table k with
  | Some fmt => fmt
  | None => default
  end = format_of_extension k.
Proof.
  unfold ext_to_fmt_table, format_of_extension, default, Py.getitem.
  repeat match goal with
         | |- context [String.eqb ?a k] => rewrite (String.eqb_sym a k)
         end.
  repeat match goal with
         | |- context [String.eqb k ?a] => destruct (String.eqb k a); [reflexivity|]
         end.
  reflexivity.
Qed.

Lemma guess_seqformat_refines (fseq : string) :
  guess_seqformat fseq = format_of_name fseq.
Proof.
  unfold guess_seqformat, format_of_name.
  rewrite splitext_final_extension, getitem_table.
  destruct (final_extension fseq); reflexivity.
Qed.

(** What the final extension is on a name that is written out: a
    directory part, a stem with a character other than ".", a dot, and
    an extension without "." or "/". *)
Lemma final_extension_of_name (pre stem e : string) :
  Ext.run Ext.start pre = Ext.start ->
  occurs "/" stem = false -> occurs "/" e = false -> occurs "." e = false ->
  final_extension (pre ++ stem ++ String "." e)
  = if has_name stem then Some e else None.
Proof.
  intros Hpre Hstem Hsep Hdot. unfold final_extension.
  rewrite !run_app, Hpre. simpl Ext.run.
  rewrite run_plain by assumption. unfold Ext.step; simpl.
  rewrite run_named by assumption. simpl.
  destruct (has_name stem); reflexivity.
Qed.

Lemma take_drop (n : nat) (s : string) : s = Py.take n s ++ Py.drop n s.
Proof.
  revert s. induction n as [|n IH]; intros s; simpl; [reflexivity|].
  destruct s as [|c s]; simpl; [reflexivity | now rewrite <- IH].
Qed.

Lemma slice_from_suffix (s : string) (i : Z) :
  s = Py.slice_to s i ++ Py.slice_from s i.
Proof. apply take_drop. Qed.

Lemma format_of_name_gz (s : string) : format_of_name (s ++ ".gz") = "fasta".
Proof.
  unfold format_of_name, final_extension. rewrite run_app. simpl.
  generalize (Ext.run Ext.start s). intros st.
  unfold Ext.step; simpl. destruct (Ext.named st); reflexivity.
Qed.

(** C3: [guess_seqformat] answers the table of the specification (aln
    to clustal, embl, fasta and fa to fasta, genbank and gb to genbank,
    phylip, phy and ph to phylip, pir, stockholm, st and stk to stockholm)
    at the final extension of the name put in lower case, and fasta when
    the extension is not in the table or when there is none, as for the
    name "-" of standard input.  On a name written [stem.e], alone or
    under a directory, the final extension is [e]. *)
Theorem guess_seqformat_table (fseq : string) :
  guess_seqformat fseq = format_of_name fseq /\
  guess_seqformat "-" = "fasta" /\
  forall dir stem e,
    occurs "/" stem = false -> has_name stem = true ->
    occurs "/" e = false -> occurs "." e = false ->
    guess_seqformat (stem ++ "." ++ e) = format_of_extension (Py.lower e) /\
    guess_seqformat (dir ++ "/" ++ stem ++ "." ++ e)
    = format_of_extension (Py.lower e).
Proof.
  split; [apply guess_seqformat_refines|]. split; [reflexivity|].
  intros dir stem e Hstem Hname Hsep Hdot. split.
  - rewrite guess_seqformat_refines. unfold format_of_name.
    change (stem ++ "." ++ e) with ("" ++ stem ++ String "." e).
    rewrite (final_extension_of_name "" stem e) by easy.
    now rewrite Hname.
  - rewrite guess_seqformat_refines. unfold format_of_name.
    replace (dir ++ "/" ++ stem ++ "." ++ e)
      with ((dir ++ "/") ++ stem ++ String "." e)
      by (rewrite app_assoc_str; reflexivity).
    rewrite (final_extension_of_name (dir ++ "/") stem e)
      by auto using run_directory.
    now rewrite Hname.
Qed.

Lemma guess_seqformat_table_witness :
  guess_seqformat "x.GB" = "genbank" /\
  guess_seqformat "dir.d/x.GB" = "genbank".
Proof.
  exact (proj2 (proj2 (guess_seqformat_table "x.GB")) "dir.d" "x" "GB"
           eq_refl eq_refl eq_refl eq_refl).
Defined.

Example guess_upper_case : guess_seqformat "reads.FASTA" = "fasta".
Proof. reflexivity. Qed.

Example guess_hidden : guess_seqformat ".gb" = "fasta".
Proof. reflexivity. Qed.

Example guess_directory : guess_seqformat "a.gb/x" = "fasta".
Proof. reflexivity. Qed.

Example guess_unknown : guess_seqformat "x.txt" = "fasta".
Proof. reflexivity. Qed.

Example guess_stk : guess_seqformat "pfam.stk" = "stockholm".
Proof. reflexivity. Qed.

Lemma gz_is_no_extension_of_the_table (fseq : string) :
  Py.slice_from fseq (-3) = ".gz" -> guess_seqformat fseq = "fasta".
Proof.
  intros Hgz. rewrite (slice_from_suffix fseq (-3)), Hgz.
  rewrite guess_seqformat_refines. apply format_of_name_gz.
Qed.

Lemma format_of_extension_nonempty (e : string) :
  (format_of_extension e =? "") = false.
Proof.
  unfold format_of_extension.
  repeat match goal with
         | |- context [String.eqb e ?a] => destruct (String.eqb e a); [reflexivity|]
         end.
  reflexivity.
Qed.

(** The test [if not fmt] of [main] never fires. *)
Lemma guess_seqformat_nonempty (fseq : string) :
  (guess_seqformat fseq =? "") = false.
Proof.
  rewrite guess_seqformat_refines. unfold format_of_name.
  destruct (final_extension fseq);
    [apply format_of_extension_nonempty | reflexivity].
Qed.

(** ** Sequencing *)

Section Sequencing.

Context {World : Type}.

Local Abbreviation M := (Script World).

Lemma outcome_bind {A B} (m : M A) (f : A -> M B) (s : state World) :
  outcome (bind m f s)
  = match outcome (m s) with
    | Return a => outcome (f a (final (m s)))
    | SystemExit code => SystemExit code
    | Uncaught e => Uncaught e
    end.
Proof.
  unfold bind, outcome, final. destruct (m s) as [[[a | code | e] s'] t]; simpl;
    [destruct (f a s') as [[r s''] t'] |..]; reflexivity.
Qed.

Lemma final_bind {A B} (m : M A) (f : A -> M B) (s : state World) :
  final (bind m f s)
  = match outcome (m s) with
    | Return a => final (f a (final (m s)))
    | _ => final (m s)
    end.
Proof.
  unfold bind, outcome, final. destruct (m s) as [[[a | code | e] s'] t]; simpl;
    [destruct (f a s') as [[r s''] t'] |..]; reflexivity.
Qed.

Lemma trace_bind {A B} (m : M A) (f : A -> M B) (s : state World) :
  trace (bind m f s)
  = (trace (m s)
     ++ match outcome (m s) with
        | Return a => trace (f a (final (m s)))
        | _ => []
        end)%list.
Proof.
  unfold bind, outcome, final, trace. destruct (m s) as [[[a | code | e] s'] t]; simpl;
    [destruct (f a s') as [[r s''] t'] |..]; try reflexivity;
    now rewrite app_nil_r.
Qed.

(** *** What a piece of the script emits *)

Lemma emits_weaken {A} (P Q : event -> Prop) (m : M A) :
  (forall e, P e -> Q e) -> emits P m -> emits Q m.
Proof. intros HPQ Hm s. eapply Forall_impl; [exact HPQ | apply Hm]. Qed.

Lemma emits_ret {A} (P : event -> Prop) (a : A) : emits P (ret a : M A).
Proof. intros s. constructor. Qed.

Lemma emits_bind {A B} (P : event -> Prop) (m : M A) (f : A -> M B) :
  emits P m -> (forall a, emits P (f a)) -> emits P (bind m f).
Proof.
  intros Hm Hf s. rewrite trace_bind. apply Forall_app. split; [apply Hm|].
  destruct (outcome (m s)); [apply Hf | constructor | constructor].
Qed.

Lemma emits_emit (P : event -> Prop) (e : event) : P e -> emits P (emit e : M unit).
Proof. intros He s. repeat constructor. exact He. Qed.

Lemma emits_sys_exit {A} (P : event -> Prop) (code : Z) :
  emits P (sys_exit code : M A).
Proof. intros s. constructor. Qed.

Lemma emits_raise {A} (P : event -> Prop) (e : exn) : emits P (raise e : M A).
Proof. intros s. constructor. Qed.

Lemma emits_when (P : event -> Prop) (b : bool) (m : M unit) :
  emits P m -> emits P (when b m).
Proof. intros Hm. destruct b; [exact Hm | apply emits_ret]. Qed.

Lemma emits_for_each {A} (P : event -> Prop) (xs : list A) (body : A -> M unit) :
  (forall x, In x xs -> emits P (body x)) -> emits P (for_each xs body).
Proof.
  induction xs as [|x xs IH]; intros Hbody; simpl.
  - apply emits_ret.
  - apply emits_bind; [apply Hbody; now left|].
    intros _. apply IH. intros y Hy. apply Hbody. now right.
Qed.

Lemma emits_for_records (P : event -> Prop) (records : stream)
    (body : SeqRecord.t -> M unit) :
  (forall record, emits P (body record)) -> emits P (for_records records body).
Proof.
  intros Hbody. induction records as [record rest IH | | e]; simpl.
  - apply emits_bind; [apply Hbody | intros _; exact IH].
  - apply emits_ret.
  - apply emits_raise.
Qed.

Lemma emits_print (P : event -> Prop) (text : string) :
  P (Stdout (text ++ nl)) -> emits P (print text : M unit).
Proof. apply emits_emit. Qed.

Lemma emits_LOG_setLevel (P : event -> Prop) (l : Z) :
  emits P (LOG_setLevel l : M unit).
Proof. intros s. constructor. Qed.

Lemma emits_LOG_log (P : event -> Prop) (levelno : Z) (levelname msg : string) :
  (forall text, P (Stderr text)) -> emits P (LOG_log levelno levelname msg : M unit).
Proof.
  intros HP s. unfold LOG_log. destruct (levelno >=? level s)%Z; simpl;
    repeat constructor. apply HP.
Qed.

End Sequencing.

Create HintDb emits discriminated.

#[export] Hint Resolve emits_ret emits_sys_exit emits_raise emits_LOG_setLevel
  : emits.
#[export] Hint Extern 1 (emits _ (LOG_debug _)) => apply emits_LOG_log : emits.
#[export] Hint Extern 1 (emits _ (LOG_info _)) => apply emits_LOG_log : emits.
#[export] Hint Extern 1 (emits _ (LOG_fatal _)) => apply emits_LOG_log : emits.
#[export] Hint Extern 1 (emits _ (bind _ _)) => apply emits_bind; [|intro] : emits.
#[export] Hint Extern 1 (emits _ (when _ _)) => apply emits_when : emits.
#[export] Hint Extern 1 (emits _ (emit _)) => apply emits_emit : emits.
#[export] Hint Extern 1 (emits _ (print _)) => apply emits_print : emits.
#[export] Hint Extern 1 (emits _ (for_records _ _)) =>
  apply emits_for_records; intro : emits.
#[export] Hint Extern 2 (emits _ (if ?b then _ else _)) => destruct b : emits.
#[export] Hint Extern 2 (emits _ (match ?x with _ => _ end)) => destruct x : emits.

(** ** The pieces of [main] *)

Section Pieces.

Context {World : Type} `{Collaborators World}.

Local Abbreviation M := (Script World).

Lemma emits_path_exists (P : event -> Prop) (fseq : string) :
  P (Exists fseq) -> emits P (path_exists fseq).
Proof. intros HP s. repeat constructor. exact HP. Qed.

Lemma emits_open (P : event -> Prop) (h : handle) :
  P (Open h) -> emits P (open_ h).
Proof.
  intros HP s. unfold open_. destruct (open_error (world s) h);
    repeat constructor; exact HP.
Qed.

Lemma emits_parse (P : event -> Prop) (h : handle) (fmt : string) :
  P (Parse h fmt) -> emits P (parse h fmt).
Proof.
  intros HP s. unfold parse. destruct (SeqIO_parse h fmt (world s)).
  repeat constructor. exact HP.
Qed.

Lemma emits_close (P : event -> Prop) (h : handle) :
  P (Close h) -> emits P (close h : M unit).
Proof. apply emits_emit. Qed.

Lemma emits_Seq_reverse_complement (P : event -> Prop) (s : string) :
  P (RevComp s) -> emits P (Seq_reverse_complement s).
Proof.
  intros HP. unfold Seq_reverse_complement.
  apply emits_bind; [now apply emits_emit|].
  intros _. destruct (reverse_complement s); auto with emits.
Qed.

Lemma emits_re_compile (P : event -> Prop) (p : string) (ic : bool) :
  P (Compile p ic) -> emits P (re_compile p ic).
Proof.
  intros HP. unfold re_compile.
  apply emits_bind; [now apply emits_emit|].
  intros _. destruct (re_error p); auto with emits.
Qed.

Lemma emits_parser_error (P : event -> Prop) (msg : string) :
  (forall text, P (Stderr text)) -> emits P (parser_error msg).
Proof. intros HP. unfold parser_error. auto 10 with emits. Qed.

Lemma emits_compile_pattern (P : event -> Prop) (opts : Values)
    (args : list string) :
  (forall text, P (Stderr text)) ->
  (forall s, P (RevComp s)) ->
  (forall p ic, P (Compile p ic)) ->
  emits P (compile_pattern opts args).
Proof.
  intros Herr Hrev Hcomp. unfold compile_pattern.
  repeat (apply emits_bind; [|intro]);
    auto using emits_parser_error, emits_re_compile with emits.
  destruct (revcomp opts); auto with emits.
  apply emits_bind; [now apply emits_Seq_reverse_complement | intro].
  auto with emits.
Qed.

Lemma emits_check_exists (P : event -> Prop) (fseq : string) :
  (forall text, P (Stderr text)) -> P (Exists fseq) ->
  emits P (check_exists fseq).
Proof.
  intros Herr Hex. unfold check_exists.
  apply emits_bind; [|intro; auto 10 with emits].
  destruct (negb (fseq =? "-")); auto using emits_path_exists with emits.
Qed.

Lemma emits_check_record (P : event -> Prop) (opts : Values)
    (regexp : RegexObject) (print_file_prefix : bool) (fseq fmt : string)
    (record : SeqRecord.t) :
  (forall text, P (Stderr text)) ->
  P (Stdout (two_lines (if print_file_prefix then fseq ++ ":" else "")
                       fmt record)) ->
  emits P (check_record opts regexp print_file_prefix fseq fmt record).
Proof.
  intros Herr Hout. unfold check_record.
  apply emits_bind; [|intro target].
  { destruct (search_in opts =? "seq"); [auto with emits|].
    destruct (search_in opts =? "id"); [|auto with emits].
    destruct (fmt =? "fasta"); auto with emits. }
  apply emits_bind; [|intro print_match].
  { destruct (search regexp target), (invert_match opts); auto with emits. }
  apply emits_when. cbv zeta.
  unfold two_lines, header in Hout.
  destruct (fmt =? "fasta"); apply emits_print;
    rewrite !app_assoc_str in *; exact Hout.
Qed.

End Pieces.

(** ** Standard output *)

Lemma stdout_writes_app (t1 t2 : list event) :
  stdout_writes (t1 ++ t2) = (stdout_writes t1 ++ stdout_writes t2)%list.
Proof.
  induction t1 as [|e t1 IH]; simpl; [reflexivity|].
  destruct e; simpl; now rewrite IH.
Qed.

Lemma stdout_writes_Forall (P : event -> Prop) (Q : string -> Prop)
    (t : list event) :
  (forall text, P (Stdout text) -> Q text) ->
  Forall P t -> Forall Q (stdout_writes t).
Proof.
  intros HPQ Ht. induction Ht as [|e t He Ht IH]; simpl; [constructor|].
  destruct e; auto.
Qed.

Lemma stdout_writes_none (t : list event) :
  Forall (fun e => is_stdout e = false) t -> stdout_writes t = [].
Proof.
  intros Ht. induction Ht as [|e t He Ht IH]; simpl; [reflexivity|].
  destruct e; simpl in *; congruence.
Qed.

Lemma printed_two_lines (prefix hdr residues : string) :
  (prefix ++ ">" ++ hdr ++ nl ++ prefix ++ residues) ++ nl
  = (prefix ++ ">" ++ hdr) ++ nl ++ (prefix ++ residues) ++ nl.
Proof. rewrite !app_assoc_str. reflexivity. Qed.

Section Records.

Context {World : Type} `{Collaborators World}.

Local Abbreviation M := (Script World).

(** A record is checked without an error when the place to search in is
    one of the two optparse lets through; what it writes is decided by
    the search in the target and by the inversion. *)
Lemma check_record_run (opts : Values) (regexp : RegexObject)
    (print_file_prefix : bool) (fseq fmt : string) (record : SeqRecord.t)
    (s : state World) :
  search_in opts = "seq" \/ search_in opts = "id" ->
  let r := check_record opts regexp print_file_prefix fseq fmt record s in
  outcome r = Return tt /\
  stdout_writes (trace r)
  = if xorb (is_match regexp (target_of (search_in opts) fmt record))
            (invert_match opts)
    then [two_lines (if print_file_prefix then fseq ++ ":" else "") fmt record]
    else [].
Proof.
  intros Hin. unfold check_record, target_of, is_match, two_lines, header.
  unfold bind, ret, when, print, emit, raise, LOG_debug, LOG_log.
  destruct Hin as [-> | ->]; cbn [String.eqb Ascii.eqb Bool.eqb];
    destruct (fmt =? "fasta");
    match goal with
    | |- context [search regexp ?t] => destruct (search regexp t)
    end;
    destruct (invert_match opts);
    try destruct (logging.DEBUG >=? level s)%Z;
    cbn -[String.append nl]; rewrite ?printed_two_lines; split; reflexivity.
Qed.

Lemma for_records_run (opts : Values) (regexp : RegexObject)
    (print_file_prefix : bool) (fseq fmt : string) (records : stream)
    (s : state World) :
  search_in opts = "seq" \/ search_in opts = "id" ->
  let r := for_records records
             (check_record opts regexp print_file_prefix fseq fmt) s in
  (outcome r = Return tt <-> exhausted records = true) /\
  stdout_writes (trace r)
  = map (two_lines (if print_file_prefix then fseq ++ ":" else "") fmt)
        (filter (fun record =>
                   xorb (is_match regexp
                           (target_of (search_in opts) fmt record))
                        (invert_match opts))
                (yielded records)).
Proof.
  intros Hin. revert s.
  induction records as [record rest IH | | e]; intros s; cbn zeta in *.
  - simpl for_records. rewrite outcome_bind, trace_bind, stdout_writes_app.
    destruct (check_record_run opts regexp print_file_prefix fseq fmt record s Hin)
      as [Hout Hwr].
    rewrite Hout, Hwr.
    destruct (IH (final (check_record opts regexp print_file_prefix fseq fmt
                           record s))) as [IHout IHwr].
    rewrite IHwr. split; [exact IHout|].
    simpl.
    destruct (xorb _ _); reflexivity.
  - simpl. split; [tauto | reflexivity].
  - simpl. split; [|reflexivity]. unfold outcome, raise; simpl.
    split; discriminate.
Qed.

End Records.

(** ** Traces without their log lines *)

Lemma unlogged_app (t1 t2 : list event) :
  unlogged (t1 ++ t2) = (unlogged t1 ++ unlogged t2)%list.
Proof.
  induction t1 as [|e t1 IH]; simpl; [reflexivity|].
  destruct e; simpl; now rewrite IH.
Qed.

Lemma filter_unlogged (f : event -> bool) (t : list event) :
  (forall text, f (Stderr text) = false) ->
  filter f t = filter f (unlogged t).
Proof.
  intros Hf. induction t as [|e t IH]; simpl; [reflexivity|].
  destruct e; simpl; rewrite ?Hf, IH; reflexivity.
Qed.

Lemma stdout_writes_unlogged (t : list event) :
  stdout_writes t = stdout_writes (unlogged t).
Proof.
  induction t as [|e t IH]; simpl; [reflexivity|].
  destruct e; simpl; now rewrite IH.
Qed.

Lemma filter_none {A} (f : A -> bool) (l : list A) :
  Forall (fun x => f x = false) l -> filter f l = [].
Proof.
  intros Hl. induction Hl as [|x l Hx Hl IH]; simpl; [reflexivity|].
  now rewrite Hx.
Qed.

(** ** The logger *)

Section Logger.

Context {World : Type} `{Collaborators World}.

Local Abbreviation M := (Script World).

Lemma LOG_log_outcome (levelno : Z) (levelname msg : string) (s : state World) :
  outcome (LOG_log levelno levelname msg s) = Return tt.
Proof. unfold LOG_log. now destruct (levelno >=? level s)%Z. Qed.

Lemma LOG_log_unlogged (levelno : Z) (levelname msg : string) (s : state World) :
  unlogged (trace (LOG_log levelno levelname msg s)) = [].
Proof. unfold LOG_log. now destruct (levelno >=? level s)%Z. Qed.

Lemma LOG_log_world (levelno : Z) (levelname msg : string) (s : state World) :
  world (final (LOG_log levelno levelname msg s)) = world s.
Proof. unfold LOG_log. now destruct (levelno >=? level s)%Z. Qed.

Lemma LOG_log_level (levelno : Z) (levelname msg : string) (s : state World) :
  level (final (LOG_log levelno levelname msg s)) = level s.
Proof. unfold LOG_log. now destruct (levelno >=? level s)%Z. Qed.

Lemma when_setLevel_outcome (b : bool) (l : Z) (s : state World) :
  outcome (when b (LOG_setLevel l) s) = Return tt.
Proof. now destruct b. Qed.

Lemma when_setLevel_trace (b : bool) (l : Z) (s : state World) :
  trace (when b (LOG_setLevel l) s) = [].
Proof. now destruct b. Qed.

Lemma when_setLevel_world (b : bool) (l : Z) (s : state World) :
  world (final (when b (LOG_setLevel l) s)) = world s.
Proof. now destruct b. Qed.

End Logger.

(** ** The arguments and the pattern (lines 118-141) *)

Section Pattern.

Context {World : Type} `{Collaborators World}.

Local Abbreviation M := (Script World).

(** With fewer than two arguments the script leaves through
    [parser.error], with the status of optparse. *)
Lemma compile_pattern_usage (opts : Values) (args : list string)
    (s : state World) :
  (length args < 2)%nat ->
  outcome (compile_pattern opts args s) = SystemExit 2 /\
  trace (compile_pattern opts args s) = usage_error.
Proof.
  intros Hlen. unfold compile_pattern.
  rewrite !outcome_bind, !trace_bind.
  rewrite !when_setLevel_outcome, !when_setLevel_trace.
  apply Nat.ltb_lt in Hlen. rewrite Hlen. simpl. split; reflexivity.
Qed.

Lemma Seq_reverse_complement_outcome (p : string) (s : state World) :
  outcome (Seq_reverse_complement p s)
  = match reverse_complement p with
    | inr p' => Return p'
    | inl e => Uncaught e
    end.
Proof.
  unfold Seq_reverse_complement. rewrite outcome_bind. simpl.
  now destruct (reverse_complement p).
Qed.

Lemma Seq_reverse_complement_trace (p : string) (s : state World) :
  trace (Seq_reverse_complement p s) = [RevComp p].
Proof.
  unfold Seq_reverse_complement. rewrite trace_bind. simpl.
  now destruct (reverse_complement p).
Qed.

Lemma re_compile_outcome (p : string) (ic : bool) (s : state World) :
  outcome (re_compile p ic s)
  = match re_error p with
    | Some e => Uncaught e
    | None => Return {| pattern := p; IGNORECASE := ic |}
    end.
Proof.
  unfold re_compile. rewrite outcome_bind. simpl. now destruct (re_error p).
Qed.

Lemma re_compile_trace (p : string) (ic : bool) (s : state World) :
  trace (re_compile p ic s) = [Compile p ic].
Proof.
  unfold re_compile. rewrite trace_bind. simpl. now destruct (re_error p).
Qed.

(** The pattern that is compiled: the argument, or its reverse
    complement. *)
Lemma compile_pattern_outcome (opts : Values) (p : string)
    (files : list string) (s : state World) :
  files <> [] ->
  outcome (compile_pattern opts (p :: files) s)
  = match (if revcomp opts then reverse_complement p else inr p) with
    | inl e => Uncaught e
    | inr p' =>
        match re_error p' with
        | Some e => Uncaught e
        | None => Return {| pattern := p'; IGNORECASE := ignore_case opts |}
        end
    end.
Proof.
  intros Hfiles. destruct files as [|f files]; [contradiction|].
  unfold compile_pattern, LOG_debug, LOG_info.
  do 3 (rewrite outcome_bind, ?when_setLevel_outcome; cbn [when Nat.ltb Nat.leb length outcome ret fst]).
  rewrite outcome_bind. cbn [outcome ret fst].
  rewrite outcome_bind.
  destruct (revcomp opts).
  - rewrite outcome_bind, Seq_reverse_complement_outcome.
    destruct (reverse_complement p) as [e | p']; [reflexivity|].
    rewrite outcome_bind, LOG_log_outcome. cbn [outcome ret fst].
    do 3 (rewrite outcome_bind, LOG_log_outcome).
    apply re_compile_outcome.
  - cbn [outcome ret fst].
    do 3 (rewrite outcome_bind, LOG_log_outcome).
    apply re_compile_outcome.
Qed.

Lemma compile_pattern_trace (opts : Values) (p : string)
    (files : list string) (s : state World) :
  files <> [] ->
  unlogged (trace (compile_pattern opts (p :: files) s))
  = match (if revcomp opts then reverse_complement p else inr p) with
    | inl e => [RevComp p]
    | inr p' =>
        ((if revcomp opts then [RevComp p] else [])
         ++ [Compile p' (ignore_case opts)])%list
    end.
Proof.
  intros Hfiles. destruct files as [|f files]; [contradiction|].
  unfold compile_pattern, LOG_debug, LOG_info.
  do 3 (rewrite trace_bind, ?when_setLevel_outcome, ?when_setLevel_trace;
        cbn [when Nat.ltb Nat.leb length outcome trace ret fst snd app]).
  rewrite trace_bind. cbn [outcome trace ret fst snd app].
  rewrite trace_bind.
  destruct (revcomp opts).
  - rewrite outcome_bind, trace_bind, Seq_reverse_complement_outcome,
      Seq_reverse_complement_trace.
    destruct (reverse_complement p) as [e | p']; [reflexivity|].
    rewrite outcome_bind, trace_bind, LOG_log_outcome.
    cbn [outcome trace ret fst snd].
    do 3 (rewrite trace_bind, LOG_log_outcome).
    rewrite !unlogged_app, !LOG_log_unlogged, re_compile_trace. reflexivity.
  - cbn [outcome trace ret fst snd app].
    do 3 (rewrite trace_bind, LOG_log_outcome).
    rewrite !unlogged_app, !LOG_log_unlogged, re_compile_trace. reflexivity.
Qed.

End Pattern.

(** ** The world is left as it is until a file is read *)

Section World.

Context {World : Type} `{Collaborators World}.

Local Abbreviation M := (Script World).

Lemma keeps_world_ret {A} (a : A) : keeps_world (ret a : M A).
Proof. intros s. reflexivity. Qed.

Lemma keeps_world_bind {A B} (m : M A) (f : A -> M B) :
  keeps_world m -> (forall a, keeps_world (f a)) -> keeps_world (bind m f).
Proof.
  intros Hm Hf s. rewrite final_bind.
  destruct (outcome (m s)); rewrite <- (Hm s); [apply Hf | reflexivity..].
Qed.

Lemma keeps_world_LOG_log (levelno : Z) (levelname msg : string) :
  keeps_world (LOG_log levelno levelname msg : M unit).
Proof. intros s. apply LOG_log_world. Qed.

Lemma keeps_world_when (b : bool) (m : M unit) :
  keeps_world m -> keeps_world (when b m).
Proof. intros Hm. destruct b; [exact Hm | apply keeps_world_ret]. Qed.

Lemma keeps_world_for_each {A} (xs : list A) (body : A -> M unit) :
  (forall x, keeps_world (body x)) -> keeps_world (for_each xs body).
Proof.
  intros Hbody. induction xs as [|x xs IH]; simpl.
  - apply keeps_world_ret.
  - apply keeps_world_bind; [apply Hbody | intros _; exact IH].
Qed.

Lemma keeps_world_check_exists (fseq : string) :
  keeps_world (check_exists fseq).
Proof.
  unfold check_exists. apply keeps_world_bind.
  - destruct (negb (fseq =? "-")); [|apply keeps_world_ret].
    apply keeps_world_bind; [intros s; reflexivity | intros a; apply keeps_world_ret].
  - intros a. apply keeps_world_when. apply keeps_world_bind.
    + apply keeps_world_LOG_log.
    + intros _ s. reflexivity.
Qed.

Lemma keeps_world_compile_pattern (opts : Values) (args : list string) :
  keeps_world (compile_pattern opts args).
Proof.
  unfold compile_pattern, parser_error, Seq_reverse_complement, re_compile.
  repeat first
    [ apply keeps_world_bind; [|intro]
    | apply keeps_world_when
    | apply keeps_world_LOG_log
    | apply keeps_world_ret
    | intros s; reflexivity
    | match goal with
      | |- keeps_world (match ?x with _ => _ end) => destruct x
      end ].
Qed.

(** *** The files are looked for (lines 144-147) *)

Lemma check_exists_outcome (fseq : string) (s : state World) :
  outcome (check_exists fseq s)
  = if negb (fseq =? "-") && negb (os_path_exists (world s) fseq)
    then SystemExit 1 else Return tt.
Proof.
  unfold check_exists, path_exists, when, bind, ret, sys_exit, LOG_fatal,
    LOG_log, outcome.
  destruct (fseq =? "-"); simpl; [reflexivity|].
  destruct (os_path_exists (world s) fseq); simpl; [reflexivity|].
  now destruct (logging.CRITICAL >=? level s)%Z.
Qed.

(** A file that is not there stops the run with the status 1. *)
Lemma check_exists_missing (seqfiles_arg : list string) (fseq : string)
    (s : state World) :
  In fseq seqfiles_arg -> fseq <> "-" ->
  os_path_exists (world s) fseq = false ->
  outcome (for_each seqfiles_arg check_exists s) = SystemExit 1.
Proof.
  intros Hin Hstdin Hmissing. revert s Hmissing.
  induction seqfiles_arg as [|f files IH]; intros s Hmissing; [contradiction|].
  simpl for_each. rewrite outcome_bind, check_exists_outcome.
  destruct (negb (f =? "-") && negb (os_path_exists (world s) f)) eqn:Hf;
    [reflexivity|].
  destruct Hin as [-> | Hin].
  - apply String.eqb_neq in Hstdin. now rewrite Hstdin, Hmissing in Hf.
  - apply IH; [assumption|]. now rewrite keeps_world_check_exists.
Qed.

End World.

(** ** A file is searched (lines 153-202) *)

Section Files.

Context {World : Type} `{Collaborators World}.

Local Abbreviation M := (Script World).

Lemma handle_eqb_stdin (h : handle) :
  handle_eqb h sys_stdin = true <-> h = sys_stdin.
Proof. destruct h; simpl; split; congruence. Qed.

Lemma emits_search_file (P : event -> Prop) (opts : Values)
    (regexp : RegexObject) (print_file_prefix : bool) (fseq : string) :
  (forall text, P (Stderr text)) ->
  (forall h, h <> sys_stdin -> P (Open h)) ->
  (forall h fmt, P (Parse h fmt)) ->
  (forall h, h <> sys_stdin -> P (Close h)) ->
  (forall record,
      P (Stdout (two_lines (if print_file_prefix then fseq ++ ":" else "")
                           (guess_seqformat fseq) record))) ->
  emits P (search_file opts regexp print_file_prefix fseq).
Proof.
  intros Herr Hopen Hparse Hclose Hout. unfold search_file.
  rewrite guess_seqformat_nonempty.
  apply emits_bind; [|intro fhandle].
  { destruct (fseq =? "-"); [apply emits_ret|].
    destruct (Py.slice_from fseq (-3) =? ".gz");
      apply emits_open, Hopen; discriminate. }
  apply emits_bind; [now apply emits_LOG_log | intros _].
  apply emits_bind; [apply emits_parse, Hparse | intros records].
  apply emits_bind.
  - apply emits_for_records. intros record.
    apply emits_check_record; [exact Herr | apply Hout].
  - intros _. destruct (handle_eqb fhandle sys_stdin) eqn:Hstdin; simpl.
    + apply emits_ret.
    + apply emits_close, Hclose. intros ->. discriminate.
Qed.

End Files.

(** ** [main] *)

Section Main.

Context {World : Type} `{Collaborators World}.

Local Abbreviation M := (Script World).

(** Nothing is written to standard output and no file is touched while
    the pattern is prepared and the files are looked for. *)
Lemma quiet_compile_pattern (opts : Values) (args : list string) :
  emits quiet (compile_pattern opts args).
Proof. apply emits_compile_pattern; intros; split; reflexivity. Qed.

Lemma quiet_check_exists (seqfiles_arg : list string) :
  emits quiet (for_each seqfiles_arg check_exists).
Proof.
  apply emits_for_each. intros fseq _.
  apply emits_check_exists; intros; split; reflexivity.
Qed.

Lemma quiet_stdout (t : list event) : Forall quiet t -> stdout t = "".
Proof.
  intros Ht. unfold stdout. rewrite stdout_writes_none; [reflexivity|].
  eapply Forall_impl; [|exact Ht]. now intros e [_ He].
Qed.

(** C5: with fewer than two positional arguments [main] prints the
    usage and the error on standard error, writes nothing to standard
    output, and leaves through [parser.error], whose status is 2: the
    [sys.exit(1)] that follows it is never reached. *)
Theorem main_too_few_arguments (opts : Values) (args : list string)
    (s : state World) :
  (length args < 2)%nat ->
  exit_status (outcome (main opts args s)) = 2%Z /\
  trace (main opts args s) = usage_error /\
  stdout (trace (main opts args s)) = "".
Proof.
  intros Hlen. unfold main.
  destruct (compile_pattern_usage opts args s Hlen) as [Hout Htr].
  rewrite outcome_bind, trace_bind, Hout, app_nil_r, Htr.
  repeat split.
Qed.

(** C4: when one of the files listed, other than "-", does not exist,
    the run ends with the status 1, it has written nothing to standard
    output, and it has opened, read and closed no file, whatever the
    other files are. *)
Theorem main_missing_file (opts : Values) (args : list string)
    (fseq : string) (s : state World) :
  In fseq (tl args) -> fseq <> "-" ->
  os_path_exists (world s) fseq = false ->
  exit_status (outcome (main opts args s)) = 1%Z /\
  stdout (trace (main opts args s)) = "" /\
  Forall (fun e => file_event e = false) (trace (main opts args s)).
Proof.
  intros Hin Hstdin Hmissing.
  destruct args as [|p files]; [contradiction|]. simpl tl in *.
  assert (Hfiles : files <> []) by (intros ->; contradiction).
  assert (Hloop : outcome (for_each files check_exists
                             (final (compile_pattern opts (p :: files) s)))
                  = SystemExit 1).
  { apply check_exists_missing with fseq; try assumption.
    now rewrite keeps_world_compile_pattern. }
  assert (Hquiet : Forall quiet (trace (main opts (p :: files) s))).
  { unfold main. rewrite trace_bind. apply Forall_app. split.
    - apply quiet_compile_pattern.
    - destruct (outcome (compile_pattern opts (p :: files) s)); [|constructor..].
      simpl tl. rewrite trace_bind, Hloop, app_nil_r.
      apply quiet_check_exists. }
  split; [|split].
  - unfold main. rewrite outcome_bind.
    rewrite (compile_pattern_outcome opts p files s Hfiles).
    destruct (if revcomp opts then reverse_complement p else inr p) as [e | p'];
      [reflexivity|].
    destruct (re_error p'); [reflexivity|].
    simpl tl. rewrite outcome_bind.
    now rewrite Hloop.
  - now apply quiet_stdout.
  - eapply Forall_impl; [|exact Hquiet]. now intros e [He _].
Qed.

Lemma filter_staged_files (t : list event) :
  Forall (fun e => pattern_event e = false) t ->
  filter staged t = filter file_event t.
Proof.
  intros Ht. induction Ht as [|e t He Ht IH]; simpl; [reflexivity|].
  unfold staged at 1. rewrite He, IH. reflexivity.
Qed.

Lemma no_pattern_event_in_loops (opts : Values) (regexp : RegexObject)
    (files : list string) :
  emits (fun e => pattern_event e = false)
    (bind (for_each files check_exists)
          (fun _ => for_each files
                      (search_file opts regexp (1 <? length files)%nat))).
Proof.
  apply emits_bind.
  - apply emits_for_each. intros fseq _. now apply emits_check_exists.
  - intros _. apply emits_for_each. intros fseq _.
    now apply emits_search_file.
Qed.

(** C6: with [--revcomp], among the events on the pattern and on the
    files the first two are the reverse complement of the pattern
    argument and the compilation of what it answered, and all that
    follows is on files: the transformation is made once, before the
    compilation and before any file is opened, and the compiled pattern
    is the reverse complement. *)
Theorem revcomp_once_before_files (opts : Values) (p p' : string)
    (files : list string) (s : state World) :
  revcomp opts = true -> files <> [] -> reverse_complement p = inr p' ->
  filter staged (trace (main opts (p :: files) s))
  = RevComp p :: Compile p' (ignore_case opts)
      :: filter file_event (trace (main opts (p :: files) s)) /\
  forall regexp,
    outcome (compile_pattern opts (p :: files) s) = Return regexp ->
    pattern regexp = p'.
Proof.
  intros Hrev Hfiles Hp'. split.
  - unfold main. rewrite trace_bind, !filter_app.
    rewrite (filter_unlogged staged) by reflexivity.
    rewrite (filter_unlogged file_event) by reflexivity.
    rewrite (compile_pattern_trace opts p files s Hfiles), Hrev, Hp'.
    simpl. do 2 f_equal.
    apply filter_staged_files.
    destruct (outcome (compile_pattern opts (p :: files) s)); [|constructor..].
    apply no_pattern_event_in_loops.
  - intros regexp. rewrite (compile_pattern_outcome opts p files s Hfiles).
    rewrite Hrev, Hp'. destruct (re_error p'); [discriminate|].
    now intros [= <-].
Qed.

End Main.

(** ** What is printed *)

Section Printed.

Context {World : Type} `{Collaborators World}.

Local Abbreviation M := (Script World).

(** C1: a record is printed exactly when the search of the pattern in
    its target succeeds XOR [invert_match] is set: without the inversion
    when the pattern matches, with it when the pattern does not match.
    So what a stream of records writes is, in order, the two lines of
    each record it yields that is selected this way, and nothing else. *)
Theorem printed_iff_match_xor_invert (opts : Values) (regexp : RegexObject)
    (print_file_prefix : bool) (fseq fmt : string) :
  search_in opts = "seq" \/ search_in opts = "id" ->
  let selected record :=
    xorb (is_match regexp (target_of (search_in opts) fmt record))
         (invert_match opts) in
  let body := check_record opts regexp print_file_prefix fseq fmt in
  (forall record s,
      stdout_writes (trace (body record s)) <> [] <-> selected record = true) /\
  (forall records s,
      stdout_writes (trace (for_records records body s))
      = map (two_lines (if print_file_prefix then fseq ++ ":" else "") fmt)
            (filter selected (yielded records))).
Proof.
  intros Hin selected body. split.
  - intros record s.
    destruct (check_record_run opts regexp print_file_prefix fseq fmt record s Hin)
      as [_ Hwr].
    subst body. rewrite Hwr. fold (selected record).
    destruct (selected record); split; congruence.
  - intros records s.
    apply (for_records_run opts regexp print_file_prefix fseq fmt records s Hin).
Qed.

(** *** A file *)

Lemma open_file_run (fseq : string) (s : state World) :
  (fseq <> "-" -> open_error (world s) (handle_of fseq) = None) ->
  let m : M handle :=
    if fseq =? "-" then ret sys_stdin
    else if Py.slice_from fseq (-3) =? ".gz" then open_ (gzip_open fseq)
    else open_ (open_rU fseq) in
  outcome (m s) = Return (handle_of fseq) /\
  final (m s) = s /\
  unlogged (trace (m s))
  = if fseq =? "-" then [] else [Open (handle_of fseq)].
Proof.
  unfold handle_of, open_. intros Hopen.
  destruct (String.eqb_spec fseq "-") as [-> | Hne]; [now repeat split|].
  specialize (Hopen Hne).
  destruct (Py.slice_from fseq (-3) =? ".gz"); cbv zeta; rewrite Hopen;
    now repeat split.
Qed.

Lemma parse_run (h : handle) (fmt : string) (s : state World) :
  outcome (parse h fmt s) = Return (fst (SeqIO_parse h fmt (world s))) /\
  trace (parse h fmt s) = [Parse h fmt].
Proof. unfold parse. now destruct (SeqIO_parse h fmt (world s)). Qed.

Lemma when_close_stdout (b : bool) (h : handle) (s : state World) :
  stdout_writes (trace (when b (close h : M unit) s)) = [].
Proof. now destruct b. Qed.

(** What a file contributes to standard output: the records its parser
    yields, filtered, each on two lines. *)
Lemma search_file_stdout (opts : Values) (regexp : RegexObject)
    (print_file_prefix : bool) (fseq : string) (s : state World) :
  search_in opts = "seq" \/ search_in opts = "id" ->
  (fseq <> "-" -> open_error (world s) (handle_of fseq) = None) ->
  let fmt := guess_seqformat fseq in
  stdout_writes (trace (search_file opts regexp print_file_prefix fseq s))
  = map (two_lines (if print_file_prefix then fseq ++ ":" else "") fmt)
        (filter (fun record =>
                   xorb (is_match regexp
                           (target_of (search_in opts) fmt record))
                        (invert_match opts))
                (yielded (fst (SeqIO_parse (handle_of fseq) fmt (world s))))).
Proof.
  intros Hin Hopen fmt. unfold search_file.
  rewrite guess_seqformat_nonempty. fold fmt.
  destruct (open_file_run fseq s Hopen) as (Hout & Hfin & Htr).
  cbv zeta in Hout, Hfin, Htr.
  rewrite trace_bind, Hout, Hfin, stdout_writes_app.
  rewrite (stdout_writes_unlogged (trace _)), Htr.
  replace (stdout_writes (if fseq =? "-" then [] else [Open (handle_of fseq)]))
    with (@nil string) by now destruct (fseq =? "-").
  unfold LOG_info.
  rewrite trace_bind, LOG_log_outcome, stdout_writes_app.
  rewrite (stdout_writes_unlogged (trace (LOG_log _ _ _ _))), LOG_log_unlogged.
  rewrite trace_bind.
  destruct (parse_run (handle_of fseq) fmt
              (final (LOG_log logging.INFO "INFO"
                        ("Checking file " ++ fseq ++ " (format " ++ fmt ++ ")") s)))
    as [Hpout Hptr].
  rewrite Hpout, Hptr, LOG_log_world.
  rewrite trace_bind, !stdout_writes_app.
  match goal with
  | |- context [for_records ?records ?body ?s'] =>
      destruct (for_records_run opts regexp print_file_prefix fseq fmt
                  records s' Hin) as [_ Hwr]
  end.
  rewrite Hwr.
  match goal with
  | |- context [match ?o with Return _ => _ | _ => _ end] => destruct o
  end; rewrite ?when_close_stdout; simpl; now rewrite ?app_nil_r.
Qed.

(** C2: what a file writes is decided by the search in the target the
    format guessed from its name gives: searching in the identifier, the
    description of the record when the guessed format is fasta and its
    bare id for every other format; searching in the sequence, the
    residues. *)
Theorem target_by_format (opts : Values) (regexp : RegexObject)
    (print_file_prefix : bool) (fseq : string) (s : state World) :
  (fseq <> "-" -> open_error (world s) (handle_of fseq) = None) ->
  let fmt := guess_seqformat fseq in
  let printed target :=
    map (two_lines (if print_file_prefix then fseq ++ ":" else "") fmt)
        (filter (fun record =>
                   xorb (is_match regexp (target record)) (invert_match opts))
                (yielded (fst (SeqIO_parse (handle_of fseq) fmt (world s))))) in
  let written :=
    stdout_writes (trace (search_file opts regexp print_file_prefix fseq s)) in
  (search_in opts = "id" -> fmt = "fasta" ->
   written = printed SeqRecord.description) /\
  (search_in opts = "id" -> fmt <> "fasta" ->
   written = printed SeqRecord.id) /\
  (search_in opts = "seq" -> written = printed SeqRecord.seq).
Proof.
  intros Hopen fmt printed written.
  assert (Hwr : search_in opts = "seq" \/ search_in opts = "id" ->
                written
                = printed (target_of (search_in opts) fmt)).
  { intros Hin. subst written printed. cbv beta.
    now apply search_file_stdout. }
  repeat split.
  - intros Hid Hfasta. rewrite Hwr by now right.
    subst printed. cbv beta. f_equal. apply filter_ext. intros record.
    unfold target_of. now rewrite Hid, Hfasta.
  - intros Hid Hfasta. rewrite Hwr by now right.
    subst printed. cbv beta. f_equal. apply filter_ext. intros record.
    unfold target_of. apply String.eqb_neq in Hfasta.
    now rewrite Hid, Hfasta.
  - intros Hseq. rewrite Hwr by now left.
    subst printed. cbv beta. f_equal. apply filter_ext. intros record.
    unfold target_of. now rewrite Hseq.
Qed.

Lemma prefix_of_flag (seqfiles_arg : list string) (fseq : string) :
  In fseq seqfiles_arg ->
  (if (1 <? length seqfiles_arg)%nat then fseq ++ ":" else "")
  = prefix_of seqfiles_arg fseq.
Proof. destruct seqfiles_arg as [|f [|g files]]; now simpl. Qed.


End Printed.

(** ** File objects *)

Lemma open_handle_app (cur : option handle) (t1 t2 : list event) :
  open_handle cur (t1 ++ t2)
  = match open_handle cur t1 with
    | Some cur' => open_handle cur' t2
    | None => None
    end.
Proof.
  revert cur. induction t1 as [|e t1 IH]; intros cur; simpl; [reflexivity|].
  destruct e; try apply IH.
  - destruct cur; [reflexivity | apply IH].
  - destruct cur as [h'|]; [|reflexivity].
    destruct (handle_eqb h h' && negb (handle_eqb h sys_stdin));
      [apply IH | reflexivity].
Qed.

Lemma open_handle_no_handle (cur : option handle) (t : list event) :
  Forall no_handle t -> open_handle cur t = Some cur.
Proof.
  intros Ht. induction Ht as [|e t He Ht IH]; simpl; [reflexivity|].
  destruct e; simpl in He; try contradiction; exact IH.
Qed.

Lemma open_handle_mid (cur : option handle) (t1 t2 t3 : list event)
    (e : event) :
  Forall no_handle (t1 ++ e :: t2) ->
  open_handle cur (t1 ++ e :: t2 ++ t3) = open_handle cur t3.
Proof.
  intros Hq.
  replace (t1 ++ e :: t2 ++ t3)%list with ((t1 ++ e :: t2) ++ t3)%list
    by (rewrite <- app_assoc; reflexivity).
  now rewrite open_handle_app, open_handle_no_handle.
Qed.

Lemma handle_eqb_refl (h : handle) : handle_eqb h h = true.
Proof. destruct h; simpl; auto using String.eqb_refl. Qed.

Section Handles.

Context {World : Type} `{Collaborators World}.

Local Abbreviation M := (Script World).

Lemma one_handle_no_handle {A} (m : M A) : emits no_handle m -> one_handle m.
Proof.
  intros Hm s. exists None. split; [|reflexivity].
  apply open_handle_no_handle, Hm.
Qed.

Lemma one_handle_bind {A B} (m : M A) (f : A -> M B) :
  one_handle m -> (forall a, one_handle (f a)) -> one_handle (bind m f).
Proof.
  intros Hm Hf s. destruct (Hm s) as (cur & Hcur & Hend).
  rewrite trace_bind, outcome_bind, open_handle_app, Hcur.
  destruct (outcome (m s)) as [a | code | e].
  - rewrite (Hend a eq_refl). apply Hf.
  - exists cur. rewrite open_handle_no_handle by constructor.
    split; [reflexivity | discriminate].
  - exists cur. rewrite open_handle_no_handle by constructor.
    split; [reflexivity | discriminate].
Qed.

Lemma one_handle_for_each {A} (xs : list A) (body : A -> M unit) :
  (forall x, one_handle (body x)) -> one_handle (for_each xs body).
Proof.
  intros Hbody. induction xs as [|x xs IH]; simpl.
  - apply one_handle_no_handle, emits_ret.
  - apply one_handle_bind; [apply Hbody | intros _; exact IH].
Qed.

(** What follows the opening of a file, lines 162-202: the handle is
    closed when the records have been read to the end. *)
Lemma search_opened_file (opts : Values) (regexp : RegexObject)
    (print_file_prefix : bool) (fseq fmt : string) (fhandle : handle)
    (s : state World) :
  let rest : M unit :=
    bind (LOG_info ("Checking file " ++ fseq ++ " (format " ++ fmt ++ ")"))
      (fun _ =>
       bind (parse fhandle fmt)
         (fun records =>
          bind (for_records records
                  (check_record opts regexp print_file_prefix fseq fmt))
            (fun _ =>
             when (negb (handle_eqb fhandle sys_stdin)) (close fhandle)))) in
  let log :=
    LOG_info ("Checking file " ++ fseq ++ " (format " ++ fmt ++ ")") s in
  let loop :=
    for_records (fst (SeqIO_parse fhandle fmt (world s)))
      (check_record opts regexp print_file_prefix fseq fmt)
      (final (parse fhandle fmt (final log))) in
  outcome (rest s)
  = match outcome loop with
    | Return _ => Return tt
    | SystemExit code => SystemExit code
    | Uncaught e => Uncaught e
    end /\
  trace (rest s)
  = (trace log ++ Parse fhandle fmt :: trace loop
     ++ match outcome loop with
        | Return _ => if handle_eqb fhandle sys_stdin then [] else [Close fhandle]
        | _ => []
        end)%list.
Proof.
  cbv zeta. unfold LOG_info.
  rewrite !outcome_bind, !trace_bind, LOG_log_outcome. cbv beta iota.
  set (s1 := final (LOG_log _ _ _ s)).
  destruct (parse_run fhandle fmt s1) as [Hpout Hptr].
  rewrite ?outcome_bind, ?trace_bind, ?Hpout, ?Hptr. cbv beta iota.
  rewrite ?outcome_bind, ?trace_bind, ?Hpout, ?Hptr. cbv beta iota.
  subst s1. rewrite LOG_log_world.
  destruct (outcome (for_records _ _ _)) as [[] | code | e];
    destruct (handle_eqb fhandle sys_stdin); split; reflexivity.
Qed.

Lemma one_handle_search_file (opts : Values) (regexp : RegexObject)
    (print_file_prefix : bool) (fseq : string) :
  one_handle (search_file opts regexp print_file_prefix fseq).
Proof.
  intros s. unfold search_file.
  set (fmt := if guess_seqformat fseq =? "" then "fasta"
              else guess_seqformat fseq).
  cbv zeta. rewrite trace_bind, outcome_bind.
  assert (Hquiet : forall fhandle s',
    Forall no_handle
      (trace (LOG_info ("Checking file " ++ fseq ++ " (format " ++ fmt ++ ")") s')
       ++ Parse fhandle fmt
          :: trace (for_records (fst (SeqIO_parse fhandle fmt (world s')))
                      (check_record opts regexp print_file_prefix fseq fmt)
                      (final (parse fhandle fmt
                         (final (LOG_info ("Checking file " ++ fseq
                                           ++ " (format " ++ fmt ++ ")") s'))))))).
  { intros fhandle s'. apply Forall_app. split.
    - now apply emits_LOG_log.
    - constructor; [exact I|].
      apply emits_for_records. intros record. now apply emits_check_record. }
  assert (Hopened : forall fhandle, fhandle <> sys_stdin ->
    exists cur,
      open_handle None
        (trace (open_ fhandle s)
         ++ match outcome (open_ fhandle s) with
            | Return a =>
                trace
                  (bind (LOG_info ("Checking file " ++ fseq ++ " (format "
                                   ++ fmt ++ ")"))
                     (fun _ =>
                      bind (parse a fmt)
                        (fun records =>
                         bind (for_records records
                                 (check_record opts regexp print_file_prefix
                                    fseq fmt))
                           (fun _ =>
                            when (negb (handle_eqb a sys_stdin)) (close a))))
                     (final (open_ fhandle s)))
            | _ => []
            end) = Some cur /\
      forall a : unit,
        match outcome (open_ fhandle s) with
        | Return a0 =>
            outcome
              (bind (LOG_info ("Checking file " ++ fseq ++ " (format "
                               ++ fmt ++ ")"))
                 (fun _ =>
                  bind (parse a0 fmt)
                    (fun records =>
                     bind (for_records records
                             (check_record opts regexp print_file_prefix
                                fseq fmt))
                       (fun _ =>
                        when (negb (handle_eqb a0 sys_stdin)) (close a0))))
                 (final (open_ fhandle s)))
        | SystemExit code => SystemExit code
        | Uncaught e => Uncaught e
        end = Return a -> cur = None).
  { intros fhandle Hfh. unfold open_.
    destruct (open_error (world s) fhandle) as [e|]; cbn [outcome trace final fst snd].
    - exists (Some fhandle). split; [reflexivity | discriminate].
    - destruct (search_opened_file opts regexp print_file_prefix fseq fmt
                  fhandle s) as [Hout Htr].
      cbv zeta in Hout, Htr. rewrite Hout, Htr.
      assert (Hne : handle_eqb fhandle sys_stdin = false).
      { destruct (handle_eqb fhandle sys_stdin) eqn:E; [|reflexivity].
        now apply handle_eqb_stdin in E. }
      rewrite Hne. cbn [app open_handle].
      rewrite open_handle_mid by apply Hquiet.
      destruct (outcome (for_records _ _ _)) as [[] | code | e].
      + exists None. split; [|reflexivity].
        cbn [open_handle]. now rewrite handle_eqb_refl, Hne.
      + exists (Some fhandle). split; [reflexivity | discriminate].
      + exists (Some fhandle). split; [reflexivity | discriminate]. }
  destruct (fseq =? "-").
  - cbn [ret outcome trace final fst snd app].
    destruct (search_opened_file opts regexp print_file_prefix fseq fmt
                sys_stdin s) as [Hout Htr].
    cbv zeta in Hout, Htr. rewrite Hout, Htr. cbn [handle_eqb].
    exists None. split.
    + rewrite open_handle_mid by apply Hquiet.
      now destruct (outcome (for_records _ _ _)).
    + reflexivity.
  - destruct (Py.slice_from fseq (-3) =? ".gz"); apply Hopened; discriminate.
Qed.

Lemma one_handle_main (opts : Values) (args : list string) :
  one_handle (main opts args).
Proof.
  unfold main. apply one_handle_bind.
  - apply one_handle_no_handle. now apply emits_compile_pattern.
  - intros regexp. apply one_handle_bind.
    + apply one_handle_no_handle, emits_for_each. intros fseq _.
      now apply emits_check_exists.
    + intros _. apply one_handle_for_each. intros fseq.
      apply one_handle_search_file.
Qed.

Lemma stdin_stays_open (opts : Values) (args : list string) :
  emits (fun e => e <> Close sys_stdin) (main opts args).
Proof.
  unfold main. apply emits_bind.
  - now apply emits_compile_pattern.
  - intros regexp. apply emits_bind.
    + apply emits_for_each. intros fseq _. now apply emits_check_exists.
    + intros _. apply emits_for_each. intros fseq _.
      apply emits_search_file; try easy.
      intros h Hh. congruence.
Qed.


Lemma handle_of_gz (fseq : string) :
  Py.slice_from fseq (-3) = ".gz" -> handle_of fseq = gzip_open fseq.
Proof.
  intros Hgz. unfold handle_of.
  destruct (String.eqb_spec fseq "-") as [-> | _]; [discriminate|].
  now rewrite Hgz.
Qed.

(** C10: a file whose name ends in [.gz] is read through [gzip.open]
    and its guessed format is fasta, whatever comes before the [.gz]
    ([x.genbank.gz] is parsed as fasta): [guess_seqformat] looks at the
    final extension of the whole name, and [gz] is not in its table. *)
Theorem guess_seqformat_gz (fseq : string) :
  Py.slice_from fseq (-3) = ".gz" ->
  guess_seqformat fseq = "fasta" /\
  forall opts regexp print_file_prefix (s : state World),
    open_error (world s) (gzip_open fseq) = None ->
    In (Parse (gzip_open fseq) "fasta")
       (trace (search_file opts regexp print_file_prefix fseq s)).
Proof.
  intros Hgz. split; [now apply gz_is_no_extension_of_the_table|].
  intros opts regexp print_file_prefix s Hopen.
  unfold search_file.
  rewrite (gz_is_no_extension_of_the_table fseq Hgz). cbn [String.eqb Ascii.eqb Bool.eqb].
  rewrite trace_bind.
  destruct (open_file_run fseq s) as (Hout & Hfin & _).
  { intros _. now rewrite handle_of_gz. }
  cbv zeta in Hout, Hfin. rewrite Hout, Hfin, handle_of_gz by assumption.
  apply in_or_app. right.
  destruct (search_opened_file opts regexp print_file_prefix fseq "fasta"
              (gzip_open fseq) s) as [_ Htr].
  cbv zeta in Htr. rewrite Htr.
  apply in_or_app. right. now left.
Qed.

End Handles.

(** ** The clock *)

Section Clock.

Context {World : Type} `{Collaborators World}.

Local Abbreviation M := (Script World).

Lemma blind_ret {A} (a : A) : clock_blind (ret a : M A).
Proof. intros s1 s2 [Hw Hl]. repeat split; assumption. Qed.

Lemma blind_bind {A B} (m : M A) (f : A -> M B) :
  clock_blind m -> (forall a, clock_blind (f a)) -> clock_blind (bind m f).
Proof.
  intros Hm Hf s1 s2 Hs. destruct (Hm s1 s2 Hs) as (Hout & Hfin & Htr).
  rewrite !outcome_bind, !final_bind, !trace_bind, !unlogged_app, Htr, Hout.
  destruct (outcome (m s2)) as [a | code | e].
  - destruct (Hf a _ _ Hfin) as (Hout' & Hfin' & Htr').
    now rewrite Hout', Htr'.
  - repeat split; apply Hfin.
  - repeat split; apply Hfin.
Qed.

Lemma blind_emit (e : event) : clock_blind (emit e : M unit).
Proof. intros s1 s2 [Hw Hl]. repeat split; assumption. Qed.

Lemma blind_sys_exit {A} (code : Z) : clock_blind (sys_exit code : M A).
Proof. intros s1 s2 [Hw Hl]. repeat split; assumption. Qed.

Lemma blind_raise {A} (e : exn) : clock_blind (raise e : M A).
Proof. intros s1 s2 [Hw Hl]. repeat split; assumption. Qed.

Lemma blind_when (b : bool) (m : M unit) :
  clock_blind m -> clock_blind (when b m).
Proof. intros Hm. destruct b; [exact Hm | apply blind_ret]. Qed.

Lemma blind_for_each {A} (xs : list A) (body : A -> M unit) :
  (forall x, clock_blind (body x)) -> clock_blind (for_each xs body).
Proof.
  intros Hbody. induction xs as [|x xs IH]; simpl.
  - apply blind_ret.
  - apply blind_bind; [apply Hbody | intros _; exact IH].
Qed.

Lemma blind_for_records (records : stream) (body : SeqRecord.t -> M unit) :
  (forall record, clock_blind (body record)) ->
  clock_blind (for_records records body).
Proof.
  intros Hbody. induction records as [record rest IH | | e]; simpl.
  - apply blind_bind; [apply Hbody | intros _; exact IH].
  - apply blind_ret.
  - apply blind_raise.
Qed.

Lemma blind_LOG_setLevel (l : Z) : clock_blind (LOG_setLevel l : M unit).
Proof. intros s1 s2 [Hw Hl]. repeat split. exact Hw. Qed.

(** A log line carries the time, and nothing else does. *)
Lemma blind_LOG_log (levelno : Z) (levelname msg : string) :
  clock_blind (LOG_log levelno levelname msg : M unit).
Proof.
  intros s1 s2 [Hw Hl]. unfold LOG_log. rewrite Hl.
  destruct (levelno >=? level s2)%Z; repeat split; assumption.
Qed.

Lemma blind_path_exists (fseq : string) : clock_blind (path_exists fseq).
Proof.
  intros s1 s2 [Hw Hl]. unfold path_exists, outcome, final, trace; simpl.
  rewrite Hw. repeat split; assumption.
Qed.

Lemma blind_open (h : handle) : clock_blind (open_ h).
Proof.
  intros s1 s2 [Hw Hl]. unfold open_. rewrite Hw.
  destruct (open_error (world s2) h); repeat split; assumption.
Qed.

Lemma blind_parse (h : handle) (fmt : string) : clock_blind (parse h fmt).
Proof.
  intros s1 s2 [Hw Hl]. unfold parse. rewrite Hw.
  destruct (SeqIO_parse h fmt (world s2)); repeat split; assumption.
Qed.

Ltac blind :=
  repeat first
    [ apply blind_bind; [|intro]
    | apply blind_when
    | apply blind_for_each; intro
    | apply blind_for_records; intro
    | apply blind_LOG_log
    | apply blind_LOG_setLevel
    | apply blind_ret
    | apply blind_emit
    | apply blind_sys_exit
    | apply blind_raise
    | apply blind_path_exists
    | apply blind_open
    | apply blind_parse
    | match goal with
      | |- clock_blind (if ?b then _ else _) => destruct b
      | |- clock_blind (match ?x with _ => _ end) => destruct x
      end ].

Lemma blind_main (opts : Values) (args : list string) :
  clock_blind (main opts args).
Proof.
  unfold main, compile_pattern, check_exists, search_file, check_record,
    parser_error, Seq_reverse_complement, re_compile, LOG_debug, LOG_info,
    LOG_fatal, print, close.
  blind.
Qed.

(** C9: two runs on the same files and standard input with the same
    options and arguments write the same bytes to standard output and
    end with the same status, whatever the time of each run: the clock
    is read for the log lines only, which go to standard error. *)
Theorem main_deterministic (opts : Values) (args : list string) (w : World)
    (clock1 clock2 : nat -> string) :
  stdout (trace (main opts args (boot w clock1)))
  = stdout (trace (main opts args (boot w clock2))) /\
  exit_status (outcome (main opts args (boot w clock1)))
  = exit_status (outcome (main opts args (boot w clock2))).
Proof.
  destruct (blind_main opts args (boot w clock1) (boot w clock2))
    as (Hout & _ & Htr); [now split|].
  unfold stdout.
  rewrite (stdout_writes_unlogged (trace (main opts args (boot w clock1)))).
  rewrite (stdout_writes_unlogged (trace (main opts args (boot w clock2)))).
  now rewrite Htr, Hout.
Qed.

End Clock.

(** ** Runs in the small world *)

Module SampleRuns.

Import Sample.

(** The scenario of the specification: the pattern [desc] in the
    identifiers of [a.fa]. *)
Example run_desc :
  stdout (trace (Sample.run cmdline_defaults ["desc"; "a.fa"]))
  = ">seq1 desc" ++ nl ++ "ACGT" ++ nl.
Proof. reflexivity. Qed.

Example run_two_files :
  stdout_writes (trace (Sample.run cmdline_defaults ["seq"; "a.fa"; "b.gb"]))
  = [ "a.fa:>seq1 desc" ++ nl ++ "a.fa:ACGT" ++ nl;
      "a.fa:>seq2 other" ++ nl ++ "a.fa:TTTT" ++ nl;
      "b.gb:>seq2" ++ nl ++ "b.gb:TTTT" ++ nl ].
Proof. reflexivity. Qed.

Example run_revcomp :
  stdout (trace (Sample.run with_revcomp ["AAAA"; "a.fa"]))
  = ">seq2 other" ++ nl ++ "TTTT" ++ nl.
Proof. reflexivity. Qed.

Example revcomp_AACG : revcomp_onto "AACG" "" = "CGTT".
Proof. reflexivity. Qed.

Lemma printed_iff_match_xor_invert_witness :
  (search_in cmdline_defaults = "seq" \/ search_in cmdline_defaults = "id") /\
  stdout_writes
    (trace (for_records (contents "a.fa")
              (check_record cmdline_defaults desc false "a.fa" "fasta")
              (boot false noon)))
  = [two_lines "" "fasta" seq1].
Proof.
  split; [right; reflexivity|].
  rewrite (proj2 (printed_iff_match_xor_invert cmdline_defaults desc false
                    "a.fa" "fasta" (or_intror eq_refl))).
  reflexivity.
Defined.

Lemma target_by_format_witness :
  ("a.fa" <> "-" -> open_error false (handle_of "a.fa") = None) /\
  stdout_writes
    (trace (search_file cmdline_defaults desc false "a.fa" (boot false noon)))
  = [two_lines "" "fasta" seq1].
Proof.
  split; [reflexivity|].
  destruct (target_by_format cmdline_defaults desc false "a.fa"
              (boot false noon)) as (Hdescription & _ & _);
    [reflexivity|].
  rewrite Hdescription by reflexivity.
  reflexivity.
Defined.

Lemma main_missing_file_witness :
  (In "nope.fa" (tl ["desc"; "a.fa"; "nope.fa"]) /\ "nope.fa" <> "-" /\
   os_path_exists false "nope.fa" = false) /\
  exit_status (outcome (Sample.run cmdline_defaults ["desc"; "a.fa"; "nope.fa"]))
  = 1%Z.
Proof.
  split; [repeat split; [simpl; auto | discriminate]|].
  apply (main_missing_file cmdline_defaults ["desc"; "a.fa"; "nope.fa"]
           "nope.fa" (boot false noon)).
  - simpl; auto.
  - discriminate.
  - reflexivity.
Defined.

Lemma main_too_few_arguments_witness :
  (length ["desc"] < 2)%nat /\
  exit_status (outcome (Sample.run cmdline_defaults ["desc"])) = 2%Z.
Proof.
  split; [simpl; lia|].
  apply (main_too_few_arguments cmdline_defaults ["desc"] (boot false noon)).
  simpl; lia.
Defined.

Lemma revcomp_once_before_files_witness :
  (revcomp with_revcomp = true /\ ["a.fa"] <> [] /\
   reverse_complement "AACG" = inr "CGTT") /\
  filter staged (trace (Sample.run with_revcomp ["AACG"; "a.fa"]))
  = [ RevComp "AACG"; Compile "CGTT" false;
      Open (open_rU "a.fa"); Parse (open_rU "a.fa") "fasta";
      Close (open_rU "a.fa") ].
Proof.
  split; [repeat split; discriminate|].
  refine (eq_trans
            (proj1 (revcomp_once_before_files with_revcomp "AACG" "CGTT"
                      ["a.fa"] (boot false noon) eq_refl
                      ltac:(discriminate) eq_refl)) _).
  reflexivity.
Defined.


Lemma guess_seqformat_gz_witness :
  Py.slice_from "x.genbank.gz" (-3) = ".gz" /\
  guess_seqformat "x.genbank.gz" = "fasta".
Proof.
  split; [reflexivity|].
  exact (proj1 (guess_seqformat_gz (World := World) "x.genbank.gz" eq_refl)).
Defined.


End SampleRuns.

(** * More results *)

(** ** A run, read off its arguments and the world *)

Lemma exhausted_raised (records : stream) :
  exhausted records = match raised records with None => true | Some _ => false end.
Proof. induction records; simpl; auto. Qed.

Section Reading.

Context {World : Type} `{Collaborators World}.

Local Abbreviation M := (Script World).

Lemma keeps_world_emit (e : event) : keeps_world (emit e : M unit).
Proof. intros s. reflexivity. Qed.

Lemma keeps_world_raise {A} (e : exn) : keeps_world (raise e : M A).
Proof. intros s. reflexivity. Qed.

Lemma keeps_world_check_record (opts : Values) (regexp : RegexObject)
    (print_file_prefix : bool) (fseq fmt : string) (record : SeqRecord.t) :
  keeps_world (check_record opts regexp print_file_prefix fseq fmt record).
Proof.
  unfold check_record, LOG_debug, print.
  repeat first
    [ apply keeps_world_bind; [|intro]
    | apply keeps_world_when
    | apply keeps_world_LOG_log
    | apply keeps_world_ret
    | apply keeps_world_emit
    | apply keeps_world_raise
    | match goal with
      | |- keeps_world (if ?b then _ else _) => destruct b
      | |- keeps_world (match ?x with _ => _ end) => destruct x
      end ].
Qed.

Lemma keeps_world_for_records (records : stream)
    (body : SeqRecord.t -> M unit) :
  (forall record, keeps_world (body record)) ->
  keeps_world (for_records records body).
Proof.
  intros Hbody. induction records as [record rest IH | | e]; simpl.
  - apply keeps_world_bind; [apply Hbody | intros _; exact IH].
  - apply keeps_world_ret.
  - apply keeps_world_raise.
Qed.

(** The loop over the records ends with the exception of the parser, if
    there is one. *)
Lemma for_records_outcome (opts : Values) (regexp : RegexObject)
    (print_file_prefix : bool) (fseq fmt : string) (records : stream)
    (s : state World) :
  search_in opts = "seq" \/ search_in opts = "id" ->
  outcome (for_records records
             (check_record opts regexp print_file_prefix fseq fmt) s)
  = match raised records with
    | None => Return tt
    | Some e => Uncaught e
    end.
Proof.
  intros Hin. revert s.
  induction records as [record rest IH | | e]; intros s; simpl; try reflexivity.
  rewrite outcome_bind.
  destruct (check_record_run opts regexp print_file_prefix fseq fmt record s Hin)
    as [Hout _].
  rewrite Hout. apply IH.
Qed.

Lemma search_file_run (opts : Values) (regexp : RegexObject)
    (print_file_prefix : bool) (fseq : string) (s : state World) :
  search_in opts = "seq" \/ search_in opts = "id" ->
  let r := search_file opts regexp print_file_prefix fseq s in
  match open_failure (world s) fseq with
  | Some e => outcome r = Uncaught e /\ stdout_writes (trace r) = []
  | None =>
      let fmt := guess_seqformat fseq in
      let parsed := SeqIO_parse (handle_of fseq) fmt (world s) in
      stdout_writes (trace r)
      = map (two_lines (if print_file_prefix then fseq ++ ":" else "") fmt)
            (filter (selected opts regexp fmt) (yielded (fst parsed))) /\
      outcome r
      = match raised (fst parsed) with
        | None => Return tt
        | Some e => Uncaught e
        end /\
      world (final r) = snd parsed
  end.
Proof.
  intros Hin r. unfold open_failure.
  destruct (String.eqb_spec fseq "-") as [Hstdin | Hfile].
  2: destruct (open_error (world s) (handle_of fseq)) as [e|] eqn:Hopen.
  2:{ (* the file cannot be opened *)
      subst r. unfold search_file. rewrite outcome_bind, trace_bind.
      apply String.eqb_neq in Hfile. rewrite Hfile.
      unfold handle_of in Hopen. rewrite Hfile in Hopen.
      unfold open_.
      destruct (Py.slice_from fseq (-3) =? ".gz"); rewrite Hopen;
        split; reflexivity. }
  all: cbv zeta; split;
    [ apply search_file_stdout; [exact Hin | intros Hne; congruence] | ].
  all: subst r; unfold search_file; rewrite guess_seqformat_nonempty;
    rewrite outcome_bind, final_bind;
    destruct (open_file_run fseq s) as (Hout & Hfin & _);
    [ intros Hne; congruence | ];
    cbv zeta in Hout, Hfin; rewrite Hout, Hfin.
  all: destruct (search_opened_file opts regexp print_file_prefix fseq
                   (guess_seqformat fseq) (handle_of fseq) s) as [Hrout _];
    cbv zeta in Hrout; rewrite Hrout;
    rewrite for_records_outcome by exact Hin.
  all: split; [now destruct (raised _)|].
  all: unfold LOG_info;
    rewrite final_bind, LOG_log_outcome, final_bind;
    destruct (parse_run (handle_of fseq) (guess_seqformat fseq)
                (final (LOG_log logging.INFO "INFO"
                          ("Checking file " ++ fseq ++ " (format "
                           ++ guess_seqformat fseq ++ ")") s)))
      as [Hpout _];
    rewrite Hpout.
  all: match goal with
       | |- world (final (bind ?m ?k ?s')) = _ =>
           assert (Hk : keeps_world (bind m k))
       end.
  1,3: apply keeps_world_bind;
    [ apply keeps_world_for_records; intros record;
      apply keeps_world_check_record
    | intros _; apply keeps_world_when, keeps_world_emit ].
  all: rewrite Hk; unfold parse; rewrite LOG_log_world;
    now destruct (SeqIO_parse _ _ _).
Qed.

Lemma search_files_run (opts : Values) (regexp : RegexObject)
    (print_file_prefix : bool) (seqfiles_arg : list string) (s : state World) :
  search_in opts = "seq" \/ search_in opts = "id" ->
  let r := for_each seqfiles_arg
             (search_file opts regexp print_file_prefix) s in
  stdout_writes (trace r)
  = search_output opts regexp print_file_prefix seqfiles_arg (world s) /\
  outcome r
  = match search_failure seqfiles_arg (world s) with
    | None => Return tt
    | Some e => Uncaught e
    end.
Proof.
  intros Hin. revert s.
  induction seqfiles_arg as [|fseq rest IH]; intros s; cbv zeta;
    [split; reflexivity|].
  simpl for_each. rewrite trace_bind, outcome_bind, stdout_writes_app.
  pose proof (search_file_run opts regexp print_file_prefix fseq s Hin) as Hfile.
  cbv zeta in Hfile. simpl search_output. simpl search_failure.
  destruct (open_failure (world s) fseq) as [e|].
  - destruct Hfile as [Hout Hwr]. rewrite Hout, Hwr. split; reflexivity.
  - destruct Hfile as (Hwr & Hout & Hworld). rewrite Hwr, Hout.
    destruct (SeqIO_parse (handle_of fseq) (guess_seqformat fseq) (world s))
      as [records w'].
    simpl fst in *. simpl snd in *.
    rewrite exhausted_raised.
    destruct (raised records) as [e|]; [split; reflexivity|].
    specialize (IH (final (search_file opts regexp print_file_prefix fseq s))).
    cbv zeta in IH. rewrite Hworld in IH. destruct IH as [IHwr IHout].
    now rewrite IHwr, IHout.
Qed.

Lemma main_usage_quiet (opts : Values) (args : list string)
    (s : state World) :
  (length args < 2)%nat ->
  stdout_writes (trace (main opts args s)) = [] /\
  outcome (main opts args s) = SystemExit 2.
Proof.
  intros Hlen. unfold main.
  destruct (compile_pattern_usage opts args s Hlen) as [Hout Htr].
  rewrite outcome_bind, trace_bind, Hout, app_nil_r, Htr.
  split; reflexivity.
Qed.

(** The first loop ends the run when a file is missing and lets it go
    on otherwise. *)
Lemma check_files_outcome (seqfiles_arg : list string) (s : state World) :
  outcome (for_each seqfiles_arg check_exists s)
  = if all_exist (world s) seqfiles_arg then Return tt else SystemExit 1.
Proof.
  revert s. induction seqfiles_arg as [|fseq rest IH]; intros s;
    [reflexivity|].
  simpl for_each. simpl all_exist.
  rewrite outcome_bind, check_exists_outcome.
  destruct (fseq =? "-"); simpl.
  - rewrite IH. now rewrite keeps_world_check_exists.
  - destruct (os_path_exists (world s) fseq); simpl; [|reflexivity].
    rewrite IH. now rewrite keeps_world_check_exists.
Qed.

Lemma compile_pattern_compiled (opts : Values) (p : string)
    (files : list string) (s : state World) :
  files <> [] ->
  outcome (compile_pattern opts (p :: files) s)
  = match compiled_pattern opts p with
    | inl e => Uncaught e
    | inr regexp => Return regexp
    end.
Proof.
  intros Hfiles. rewrite compile_pattern_outcome by exact Hfiles.
  unfold compiled_pattern.
  destruct (if revcomp opts then reverse_complement p else inr p) as [e | p'];
    [reflexivity|].
  now destruct (re_error p').
Qed.

(** X1: What a run writes to standard output: nothing when the pattern
    cannot be prepared or a file is missing, and otherwise the two lines
    of the selected records, the files in the order of the arguments and
    the records in the order of each file, up to the first file that
    cannot be opened or read to its end. *)
Theorem main_stdout (opts : Values) (p : string) (files : list string)
    (s : state World) :
  search_in opts = "seq" \/ search_in opts = "id" ->
  stdout_writes (trace (main opts (p :: files) s))
  = match compiled_pattern opts p with
    | inl _ => []
    | inr regexp =>
        if all_exist (world s) files
        then search_output opts regexp (1 <? length files)%nat files (world s)
        else []
    end.
Proof.
  intros Hin. destruct files as [|f files].
  - destruct (main_usage_quiet opts [p] s) as [Hq _]; [simpl; lia|].
    rewrite Hq. now destruct (compiled_pattern opts p).
  - remember (f :: files) as fs eqn:Efs.
    assert (Hfs : fs <> []) by (subst fs; discriminate).
    unfold main. rewrite trace_bind, stdout_writes_app.
    rewrite (stdout_writes_none (trace (compile_pattern _ _ _))).
    2:{ eapply Forall_impl; [|apply quiet_compile_pattern]. now intros e [_ He]. }
    rewrite (compile_pattern_compiled opts p fs s Hfs).
    destruct (compiled_pattern opts p) as [e | regexp]; [reflexivity|].
    simpl tl. rewrite trace_bind, stdout_writes_app.
    rewrite (stdout_writes_none (trace (for_each fs check_exists _))).
    2:{ eapply Forall_impl; [|apply quiet_check_exists]. now intros e [_ He]. }
    rewrite check_files_outcome, keeps_world_compile_pattern.
    destruct (all_exist (world s) fs); [|reflexivity].
    rewrite !app_nil_l.
    match goal with
    | |- context [for_each fs (search_file ?o ?r ?b) ?s'] =>
        destruct (search_files_run o r b fs s' Hin) as [Hwr _]
    end.
    rewrite Hwr.
    rewrite (keeps_world_for_each fs check_exists keeps_world_check_exists).
    now rewrite keeps_world_compile_pattern.
Qed.

End Reading.

(** ** How a run ends *)

Section Endings.

Context {World : Type} `{Collaborators World}.

Local Abbreviation M := (Script World).

(** X2: The status of a run: 2 for a usage error, 1 when the pattern cannot
    be prepared, a file is missing, or a file cannot be opened or read to
    its end, and 0 otherwise. *)
Theorem main_exit_status (opts : Values) (args : list string)
    (s : state World) :
  search_in opts = "seq" \/ search_in opts = "id" ->
  exit_status (outcome (main opts args s))
  = match args with
    | [] | [_] => 2%Z
    | p :: files =>
        match compiled_pattern opts p with
        | inl _ => 1%Z
        | inr _ =>
            if all_exist (world s) files
            then match search_failure files (world s) with
                 | None => 0%Z
                 | Some _ => 1%Z
                 end
            else 1%Z
        end
    end.
Proof.
  intros Hin. destruct args as [|p [|f files]].
  - destruct (main_usage_quiet opts [] s) as [_ Hout]; [simpl; lia|].
    now rewrite Hout.
  - destruct (main_usage_quiet opts [p] s) as [_ Hout]; [simpl; lia|].
    now rewrite Hout.
  - remember (f :: files) as fs eqn:Efs.
    assert (Hfs : fs <> []) by (subst fs; discriminate).
    unfold main. rewrite outcome_bind.
    rewrite (compile_pattern_compiled opts p fs s Hfs).
    destruct (compiled_pattern opts p) as [e | regexp]; [reflexivity|].
    simpl tl. rewrite outcome_bind, check_files_outcome.
    rewrite keeps_world_compile_pattern.
    destruct (all_exist (world s) fs); [|reflexivity].
    match goal with
    | |- context [for_each fs (search_file ?o ?r ?b) ?s'] =>
        destruct (search_files_run o r b fs s' Hin) as [_ Hout]
    end.
    rewrite Hout.
    rewrite (keeps_world_for_each fs check_exists keeps_world_check_exists).
    rewrite keeps_world_compile_pattern.
    now destruct (search_failure fs (world s)).
Qed.

(** *** Nothing but [parser.error] and a missing file calls [sys.exit] *)

Lemma never_exits_ret {A} (a : A) : never_exits (ret a : M A).
Proof. intros s code. discriminate. Qed.

Lemma never_exits_bind {A B} (m : M A) (f : A -> M B) :
  never_exits m -> (forall a, never_exits (f a)) -> never_exits (bind m f).
Proof.
  intros Hm Hf s code. rewrite outcome_bind.
  destruct (outcome (m s)) as [a | code' | e] eqn:Hout.
  - apply Hf.
  - now apply Hm in Hout.
  - discriminate.
Qed.

Lemma never_exits_raise {A} (e : exn) : never_exits (raise e : M A).
Proof. intros s code. discriminate. Qed.

Lemma never_exits_emit (e : event) : never_exits (emit e : M unit).
Proof. intros s code. discriminate. Qed.

Lemma never_exits_LOG_log (levelno : Z) (levelname msg : string) :
  never_exits (LOG_log levelno levelname msg : M unit).
Proof. intros s code. now rewrite LOG_log_outcome. Qed.

Lemma never_exits_when (b : bool) (m : M unit) :
  never_exits m -> never_exits (when b m).
Proof. intros Hm. destruct b; [exact Hm | apply never_exits_ret]. Qed.

Lemma never_exits_for_each {A} (xs : list A) (body : A -> M unit) :
  (forall x, never_exits (body x)) -> never_exits (for_each xs body).
Proof.
  intros Hbody. induction xs as [|x xs IH]; simpl.
  - apply never_exits_ret.
  - apply never_exits_bind; [apply Hbody | intros _; exact IH].
Qed.

Lemma never_exits_for_records (records : stream)
    (body : SeqRecord.t -> M unit) :
  (forall record, never_exits (body record)) ->
  never_exits (for_records records body).
Proof.
  intros Hbody. induction records as [record rest IH | | e]; simpl.
  - apply never_exits_bind; [apply Hbody | intros _; exact IH].
  - apply never_exits_ret.
  - apply never_exits_raise.
Qed.

Lemma never_exits_open (h : handle) : never_exits (open_ h).
Proof.
  intros s code. unfold open_.
  now destruct (open_error (world s) h).
Qed.

Lemma never_exits_parse (h : handle) (fmt : string) :
  never_exits (parse h fmt).
Proof.
  intros s code. unfold parse.
  now destruct (SeqIO_parse h fmt (world s)).
Qed.

Ltac never_exits :=
  repeat first
    [ apply never_exits_bind; [|intro]
    | apply never_exits_when
    | apply never_exits_for_each; intro
    | apply never_exits_for_records; intro
    | apply never_exits_LOG_log
    | apply never_exits_ret
    | apply never_exits_emit
    | apply never_exits_raise
    | apply never_exits_open
    | apply never_exits_parse
    | match goal with
      | |- never_exits (if ?b then _ else _) => destruct b
      | |- never_exits (match ?x with _ => _ end) => destruct x
      end ].

Lemma never_exits_search_file (opts : Values) (regexp : RegexObject)
    (print_file_prefix : bool) (fseq : string) :
  never_exits (search_file opts regexp print_file_prefix fseq).
Proof.
  unfold search_file, check_record, LOG_info, LOG_debug, print, close.
  never_exits.
Qed.

(** X3: A run ends with the status 0, 1 or 2, and with 2 exactly when it was
    given fewer than two arguments. *)
Theorem exit_status_range (opts : Values) (args : list string)
    (s : state World) :
  let status := exit_status (outcome (main opts args s)) in
  (status = 0 \/ status = 1 \/ status = 2)%Z /\
  (status = 2%Z <-> (length args < 2)%nat).
Proof.
  cbv zeta.
  destruct (Nat.lt_ge_cases (length args) 2) as [Hlen | Hlen].
  - destruct (main_usage_quiet opts args s Hlen) as [_ Hout].
    rewrite Hout. simpl. split; [auto | tauto].
  - assert (Hst : (exit_status (outcome (main opts args s)) = 0
                   \/ exit_status (outcome (main opts args s)) = 1)%Z).
    { destruct args as [|p [|f files]]; try (simpl in Hlen; lia).
      remember (f :: files) as fs eqn:Efs.
      assert (Hfs : fs <> []) by (subst fs; discriminate).
      unfold main. rewrite outcome_bind.
      rewrite (compile_pattern_compiled opts p fs s Hfs).
      destruct (compiled_pattern opts p) as [e | regexp]; [now right|].
      simpl tl. rewrite outcome_bind, check_files_outcome.
      destruct (all_exist _ fs); [|now right].
      match goal with
      | |- context [outcome (?m ?s')] =>
          pose proof (never_exits_for_each fs _
                        (never_exits_search_file opts regexp
                           (1 <? length fs)%nat) s') as Hne;
          destruct (outcome (m s')) as [[] | code | e]
      end.
      - now left.
      - now destruct (Hne code).
      - now right. }
    split; [tauto|]. split; [lia|]. intros Hlt. lia.
Qed.

(** X4: A pattern that cannot be prepared ends the run before anything
    else: the exception of [reverse_complement] or of [re.compile] leaves
    [main], no file has been looked for, opened or read, and nothing has
    been written to standard output. *)
Theorem pattern_error_stops_first (opts : Values) (p : string)
    (files : list string) (e : exn) (s : state World) :
  files <> [] -> compiled_pattern opts p = inl e ->
  outcome (main opts (p :: files) s) = Uncaught e /\
  Forall pattern_stage (trace (main opts (p :: files) s)).
Proof.
  intros Hfiles Hp. unfold main. rewrite outcome_bind, trace_bind.
  rewrite (compile_pattern_compiled opts p files s Hfiles), Hp.
  split; [reflexivity|]. rewrite app_nil_r.
  now apply emits_compile_pattern.
Qed.

(** X5: Without [--revcomp] the pattern argument is compiled as it is, with
    [re.IGNORECASE] exactly when [-i] was given: no reverse complement
    is taken, and the compilation comes before any file is opened. *)
Theorem pattern_compiled_as_given (opts : Values) (p : string)
    (files : list string) (s : state World) :
  revcomp opts = false -> files <> [] ->
  filter staged (trace (main opts (p :: files) s))
  = Compile p (ignore_case opts)
      :: filter file_event (trace (main opts (p :: files) s)) /\
  forall regexp,
    outcome (compile_pattern opts (p :: files) s) = Return regexp ->
    regexp = {| pattern := p; IGNORECASE := ignore_case opts |}.
Proof.
  intros Hrev Hfiles. split.
  - unfold main. rewrite trace_bind, !filter_app.
    rewrite (filter_unlogged staged) by reflexivity.
    rewrite (filter_unlogged file_event) by reflexivity.
    rewrite (compile_pattern_trace opts p files s Hfiles), Hrev.
    simpl. f_equal.
    apply filter_staged_files.
    destruct (outcome (compile_pattern opts (p :: files) s)); [|constructor..].
    apply no_pattern_event_in_loops.
  - intros regexp. rewrite (compile_pattern_outcome opts p files s Hfiles).
    rewrite Hrev. destruct (re_error p); [discriminate|].
    now intros [= <-].
Qed.

End Endings.

(** ** More on [guess_seqformat] *)

Lemma format_of_extension_range (e : string) :
  In (format_of_extension e) formats.
Proof.
  unfold format_of_extension, formats.
  repeat match goal with
         | |- context [String.eqb e ?a] => destruct (String.eqb e a); [simpl; tauto|]
         end.
  simpl; tauto.
Qed.

(** X6: The guess is always one of the seven formats of the table, so the
    test [if not fmt] of [main] never replaces it. *)
Theorem guess_seqformat_range (fseq : string) :
  In (guess_seqformat fseq) formats /\
  (if guess_seqformat fseq =? "" then "fasta" else guess_seqformat fseq)
  = guess_seqformat fseq.
Proof.
  split.
  - rewrite guess_seqformat_refines. unfold format_of_name.
    destruct (final_extension fseq);
      [apply format_of_extension_range | simpl; tauto].
  - now rewrite guess_seqformat_nonempty.
Qed.

(** X7: The directories of a path play no part in the guess, dots in their
    names included. *)
Theorem guess_seqformat_directory (dir name : string) :
  guess_seqformat (dir ++ "/" ++ name) = guess_seqformat name.
Proof.
  rewrite !guess_seqformat_refines. unfold format_of_name, final_extension.
  replace (dir ++ "/" ++ name) with ((dir ++ "/") ++ name)
    by (rewrite app_assoc_str; reflexivity).
  now rewrite run_app, run_directory.
Qed.

Lemma run_dots (dots : string) :
  has_name dots = false -> Ext.run Ext.start dots = Ext.start.
Proof.
  induction dots as [|c dots IH]; simpl; [reflexivity|].
  intros Hd. apply orb_false_iff in Hd as [Hc Hd].
  apply negb_false_iff in Hc. apply Ascii.eqb_eq in Hc. subst c.
  exact (IH Hd).
Qed.

(** X8: A name without an extension is taken for fasta, and the dots that
    open a name start no extension: [README], [.gb] and [..gb] are all
    read as fasta. *)
Theorem guess_seqformat_no_extension (dots e : string) :
  has_name dots = false -> occurs "." e = false -> occurs "/" e = false ->
  guess_seqformat (dots ++ e) = "fasta".
Proof.
  intros Hdots Hdot Hsep.
  rewrite guess_seqformat_refines. unfold format_of_name, final_extension.
  rewrite run_app, run_dots by assumption.
  now rewrite run_plain by assumption.
Qed.

Lemma guess_seqformat_no_extension_witness :
  guess_seqformat "README" = "fasta" /\ guess_seqformat "..gb" = "fasta".
Proof.
  split.
  - exact (guess_seqformat_no_extension "" "README" eq_refl eq_refl eq_refl).
  - exact (guess_seqformat_no_extension ".." "gb" eq_refl eq_refl eq_refl).
Defined.

(** X9: A name that ends with a dot has an empty extension, which is not in
    the table: it is taken for fasta. *)
Theorem guess_seqformat_trailing_dot (p : string) :
  guess_seqformat (p ++ ".") = "fasta".
Proof.
  rewrite guess_seqformat_refines. unfold format_of_name, final_extension.
  rewrite run_app. simpl. unfold Ext.step; simpl.
  now destruct (Ext.named (Ext.run Ext.start p)).
Qed.

(** *** Upper and lower case *)

Lemma lower_ascii_idempotent (c : ascii) :
  Py.lower_ascii (Py.lower_ascii c) = Py.lower_ascii c.
Proof. destruct c as [[] [] [] [] [] [] [] []]; reflexivity. Qed.

Lemma lower_ascii_sep (c : ascii) :
  Ascii.eqb (Py.lower_ascii c) "/" = Ascii.eqb c "/".
Proof. destruct c as [[] [] [] [] [] [] [] []]; reflexivity. Qed.

Lemma lower_ascii_dot (c : ascii) :
  Ascii.eqb (Py.lower_ascii c) "." = Ascii.eqb c ".".
Proof. destruct c as [[] [] [] [] [] [] [] []]; reflexivity. Qed.

Lemma lower_idempotent (s : string) : Py.lower (Py.lower s) = Py.lower s.
Proof.
  induction s as [|c s IH]; simpl; [reflexivity|].
  now rewrite lower_ascii_idempotent, IH.
Qed.

Lemma lower_app (s1 s2 : string) :
  Py.lower (s1 ++ s2) = Py.lower s1 ++ Py.lower s2.
Proof. induction s1 as [|c s1 IH]; simpl; [reflexivity | now rewrite IH]. Qed.

Lemma run_lower (st : Ext.scan) (p : string) :
  Ext.run {| Ext.named := Ext.named st;
             Ext.ext := option_map Py.lower (Ext.ext st) |} (Py.lower p)
  = {| Ext.named := Ext.named (Ext.run st p);
       Ext.ext := option_map Py.lower (Ext.ext (Ext.run st p)) |}.
Proof.
  revert st. induction p as [|c p IH]; intros st; simpl; [reflexivity|].
  rewrite <- IH. f_equal.
  unfold Ext.step. rewrite lower_ascii_sep, lower_ascii_dot. simpl.
  destruct (Ascii.eqb c "/"); [reflexivity|].
  destruct (Ascii.eqb c "."); simpl.
  - now destruct (Ext.named st).
  - destruct (Ext.ext st); simpl; [|reflexivity].
    now rewrite lower_app.
Qed.

(** X10: The case of the letters of a name plays no part in the guess. *)
Theorem guess_seqformat_lower (fseq : string) :
  guess_seqformat (Py.lower fseq) = guess_seqformat fseq.
Proof.
  rewrite !guess_seqformat_refines. unfold format_of_name, final_extension.
  pose proof (run_lower Ext.start fseq) as Hrun. simpl in Hrun.
  change {| Ext.named := false; Ext.ext := None |} with Ext.start in Hrun.
  rewrite Hrun. simpl.
  destruct (Ext.ext (Ext.run Ext.start fseq)); simpl; [|reflexivity].
  now rewrite lower_idempotent.
Qed.

(** ** Verbosity *)

Section Verbosity.

Context {World : Type} `{Collaborators World}.

Local Abbreviation M := (Script World).

Lemma log_blind_same {A} (m : M A) :
  (forall s1 s2, world s1 = world s2 ->
     outcome (m s1) = outcome (m s2) /\
     world (final (m s1)) = world (final (m s2)) /\
     trace (m s1) = trace (m s2)) ->
  log_blind m m.
Proof.
  intros Hm s1 s2 Hw. destruct (Hm s1 s2 Hw) as (Ho & Hf & Ht).
  now rewrite Ho, Hf, Ht.
Qed.

Lemma log_blind_ret {A} (a : A) : log_blind (ret a : M A) (ret a).
Proof. intros s1 s2 Hw. now repeat split. Qed.

Lemma log_blind_bind {A B} (m1 m2 : M A) (f1 f2 : A -> M B) :
  log_blind m1 m2 -> (forall a, log_blind (f1 a) (f2 a)) ->
  log_blind (bind m1 f1) (bind m2 f2).
Proof.
  intros Hm Hf s1 s2 Hw. destruct (Hm s1 s2 Hw) as (Hout & Hfin & Htr).
  rewrite !outcome_bind, !final_bind, !trace_bind, !unlogged_app, Htr, Hout.
  destruct (outcome (m2 s2)) as [a | code | e].
  - destruct (Hf a _ _ Hfin) as (Hout' & Hfin' & Htr').
    now rewrite Hout', Htr'.
  - now repeat split.
  - now repeat split.
Qed.

Lemma log_blind_emit (e : event) : log_blind (emit e : M unit) (emit e).
Proof. intros s1 s2 Hw. now repeat split. Qed.

Lemma log_blind_sys_exit {A} (code : Z) :
  log_blind (sys_exit code : M A) (sys_exit code).
Proof. intros s1 s2 Hw. now repeat split. Qed.

Lemma log_blind_raise {A} (e : exn) : log_blind (raise e : M A) (raise e).
Proof. intros s1 s2 Hw. now repeat split. Qed.

Lemma log_blind_when (b : bool) (m1 m2 : M unit) :
  log_blind m1 m2 -> log_blind (when b m1) (when b m2).
Proof. intros Hm. destruct b; [exact Hm | apply log_blind_ret]. Qed.

(** Whether and at what level the logger is set makes no difference. *)
Lemma log_blind_setLevel (b1 b2 : bool) (l1 l2 : Z) :
  log_blind (when b1 (LOG_setLevel l1) : M unit) (when b2 (LOG_setLevel l2)).
Proof. intros s1 s2 Hw. destruct b1, b2; now repeat split. Qed.

(** Nor does a log line, shown or not. *)
Lemma log_blind_LOG_log (levelno : Z) (levelname msg : string) :
  log_blind (LOG_log levelno levelname msg : M unit)
            (LOG_log levelno levelname msg).
Proof.
  intros s1 s2 Hw.
  rewrite !LOG_log_outcome, !LOG_log_world, !LOG_log_unlogged.
  now repeat split.
Qed.

Lemma log_blind_for_each {A} (xs : list A) (body1 body2 : A -> M unit) :
  (forall x, log_blind (body1 x) (body2 x)) ->
  log_blind (for_each xs body1) (for_each xs body2).
Proof.
  intros Hbody. induction xs as [|x xs IH]; simpl.
  - apply log_blind_ret.
  - apply log_blind_bind; [apply Hbody | intros _; exact IH].
Qed.

Lemma log_blind_for_records (records : stream)
    (body1 body2 : SeqRecord.t -> M unit) :
  (forall record, log_blind (body1 record) (body2 record)) ->
  log_blind (for_records records body1) (for_records records body2).
Proof.
  intros Hbody. induction records as [record rest IH | | e]; simpl.
  - apply log_blind_bind; [apply Hbody | intros _; exact IH].
  - apply log_blind_ret.
  - apply log_blind_raise.
Qed.

Lemma log_blind_path_exists (fseq : string) :
  log_blind (path_exists fseq) (path_exists fseq).
Proof.
  intros s1 s2 Hw. unfold path_exists, outcome, final, trace; simpl.
  now rewrite Hw.
Qed.

Lemma log_blind_open (h : handle) : log_blind (open_ h) (open_ h).
Proof.
  intros s1 s2 Hw. unfold open_. rewrite Hw.
  now destruct (open_error (world s2) h).
Qed.

Lemma log_blind_parse (h : handle) (fmt : string) :
  log_blind (parse h fmt) (parse h fmt).
Proof.
  intros s1 s2 Hw. unfold parse. rewrite Hw.
  now destruct (SeqIO_parse h fmt (world s2)).
Qed.

Ltac log_blind :=
  repeat first
    [ apply log_blind_setLevel
    | apply log_blind_bind; [|intro]
    | apply log_blind_when
    | apply log_blind_for_each; intro
    | apply log_blind_for_records; intro
    | apply log_blind_LOG_log
    | apply log_blind_ret
    | apply log_blind_emit
    | apply log_blind_sys_exit
    | apply log_blind_raise
    | apply log_blind_path_exists
    | apply log_blind_open
    | apply log_blind_parse
    | match goal with
      | |- log_blind (if ?b then _ else _) (if ?b then _ else _) => destruct b
      | |- log_blind (match ?x with _ => _ end) (match ?x with _ => _ end) =>
          destruct x
      end ].

Lemma log_blind_main (opts1 opts2 : Values) (args : list string) :
  same_but_verbosity opts1 opts2 ->
  log_blind (main opts1 args) (main opts2 args).
Proof.
  destruct opts1 as [si1 v1 d1 rc1 ic1 im1], opts2 as [si2 v2 d2 rc2 ic2 im2].
  intros (Hsi & Hrc & Hic & Him). simpl in Hsi, Hrc, Hic, Him. subst.
  unfold main, compile_pattern, check_exists, search_file, check_record,
    parser_error, Seq_reverse_complement, re_compile, LOG_debug, LOG_info,
    LOG_fatal, print, close.
  cbn [search_in verbose debug revcomp ignore_case invert_match].
  log_blind.
Qed.

(** X11: [--verbose] and [--debug] change what goes to standard error only:
    standard output, the status of the run, and every event other than a
    log line are the same with and without them. *)
Theorem verbosity_changes_stderr_only (opts1 opts2 : Values)
    (args : list string) (s1 s2 : state World) :
  same_but_verbosity opts1 opts2 -> world s1 = world s2 ->
  stdout (trace (main opts1 args s1)) = stdout (trace (main opts2 args s2)) /\
  exit_status (outcome (main opts1 args s1))
  = exit_status (outcome (main opts2 args s2)) /\
  unlogged (trace (main opts1 args s1)) = unlogged (trace (main opts2 args s2)).
Proof.
  intros Hopts Hw.
  destruct (log_blind_main opts1 opts2 args Hopts s1 s2 Hw) as (Hout & _ & Htr).
  unfold stdout.
  rewrite (stdout_writes_unlogged (trace (main opts1 args s1))).
  rewrite (stdout_writes_unlogged (trace (main opts2 args s2))).
  now rewrite Htr, Hout.
Qed.

End Verbosity.

(** ** The level of the logger *)

Section Level.

Context {World : Type} `{Collaborators World}.

Local Abbreviation M := (Script World).

Variable L : Z -> Prop.
Variable P : event -> Prop.

Local Abbreviation at_level := (under (fun s : state World => L (level s)) P).

Lemma under_ret {A} (a : A) : at_level (ret a : M A).
Proof. intros s Hs. split; [exact Hs | constructor]. Qed.

Lemma under_bind {A B} (m : M A) (f : A -> M B) :
  at_level m -> (forall a, at_level (f a)) -> at_level (bind m f).
Proof.
  intros Hm Hf s Hs. destruct (Hm s Hs) as [Hfin Htr].
  rewrite final_bind, trace_bind.
  destruct (outcome (m s)) as [a | code | e].
  - destruct (Hf a _ Hfin) as [Hfin' Htr'].
    split; [exact Hfin' | now apply Forall_app].
  - split; [exact Hfin | now rewrite app_nil_r].
  - split; [exact Hfin | now rewrite app_nil_r].
Qed.

Lemma under_emit (e : event) : P e -> at_level (emit e : M unit).
Proof. intros He s Hs. split; [exact Hs | now repeat constructor]. Qed.

Lemma under_sys_exit {A} (code : Z) : at_level (sys_exit code : M A).
Proof. intros s Hs. split; [exact Hs | constructor]. Qed.

Lemma under_raise {A} (e : exn) : at_level (raise e : M A).
Proof. intros s Hs. split; [exact Hs | constructor]. Qed.

Lemma under_when (b : bool) (m : M unit) :
  at_level m -> at_level (when b m).
Proof. intros Hm. destruct b; [exact Hm | apply under_ret]. Qed.

Lemma under_for_each {A} (xs : list A) (body : A -> M unit) :
  (forall x, at_level (body x)) -> at_level (for_each xs body).
Proof.
  intros Hbody. induction xs as [|x xs IH]; simpl.
  - apply under_ret.
  - apply under_bind; [apply Hbody | intros _; exact IH].
Qed.

Lemma under_for_records (records : stream) (body : SeqRecord.t -> M unit) :
  (forall record, at_level (body record)) ->
  at_level (for_records records body).
Proof.
  intros Hbody. induction records as [record rest IH | | e]; simpl.
  - apply under_bind; [apply Hbody | intros _; exact IH].
  - apply under_ret.
  - apply under_raise.
Qed.

Lemma under_setLevel (l : Z) : L l -> at_level (LOG_setLevel l : M unit).
Proof. intros Hl s Hs. split; [exact Hl | constructor]. Qed.

(** A log line below the level is not shown. *)
Lemma under_LOG_log (levelno : Z) (levelname msg : string) :
  (forall l, L l ->
     (levelno >=? l)%Z = false \/
     forall time, P (Stderr (levelname ++ " [" ++ time ++ "]: " ++ msg ++ nl))) ->
  at_level (LOG_log levelno levelname msg : M unit).
Proof.
  intros Hshown s Hs. unfold LOG_log.
  destruct (levelno >=? level s)%Z eqn:Hlevel.
  - split; [exact Hs|]. repeat constructor.
    destruct (Hshown _ Hs) as [Hno | Hyes]; [congruence | apply Hyes].
  - split; [exact Hs | constructor].
Qed.

Lemma under_path_exists (fseq : string) :
  P (Exists fseq) -> at_level (path_exists fseq).
Proof. intros HP s Hs. split; [exact Hs | now repeat constructor]. Qed.

Lemma under_open (h : handle) : P (Open h) -> at_level (open_ h).
Proof.
  intros HP s Hs. unfold open_.
  destruct (open_error (world s) h); split; try exact Hs;
    now repeat constructor.
Qed.

Lemma under_parse (h : handle) (fmt : string) :
  P (Parse h fmt) -> at_level (parse h fmt).
Proof.
  intros HP s Hs. unfold parse.
  destruct (SeqIO_parse h fmt (world s)). split; [exact Hs|].
  now repeat constructor.
Qed.

End Level.

Ltac under_step L :=
  first
    [ apply (under_bind L); [|intro]
    | apply (under_when L)
    | apply (under_for_each L); intro
    | apply (under_for_records L); intro
    | apply (under_ret L)
    | apply (under_sys_exit L)
    | apply (under_raise L)
    | match goal with
      | |- under _ _ (if ?b then _ else _) => destruct b
      | |- under _ _ (match ?x with _ => _ end) => destruct x
      end ].

Section Quiet.

Context {World : Type} `{Collaborators World}.

Lemma loud_critical (time msg : string) :
  loud_event (Stderr ("CRITICAL" ++ " [" ++ time ++ "]: " ++ msg ++ nl)).
Proof. right. now exists time, msg. Qed.


End Quiet.

(** ** The files a run touches *)

Section Touched.

Context {World : Type} `{Collaborators World}.

Local Abbreviation M := (Script World).

(** [emits] through a [bind] whose first part returns values of a known
    kind only. *)
Lemma emits_bind_value {A B} (P : event -> Prop) (Q : A -> Prop)
    (m : M A) (f : A -> M B) :
  emits P m ->
  (forall s a, outcome (m s) = Return a -> Q a) ->
  (forall a, Q a -> emits P (f a)) ->
  emits P (bind m f).
Proof.
  intros Hm HQ Hf s. rewrite trace_bind. apply Forall_app.
  split; [apply Hm|].
  destruct (outcome (m s)) as [a | code | e] eqn:Hout; [|constructor..].
  apply Hf. now apply (HQ s).
Qed.

Lemma emits_check_record_any (P : event -> Prop) (opts : Values)
    (regexp : RegexObject) (print_file_prefix : bool) (fseq fmt : string)
    (record : SeqRecord.t) :
  (forall text, P (Stderr text)) -> (forall text, P (Stdout text)) ->
  emits P (check_record opts regexp print_file_prefix fseq fmt record).
Proof. intros Herr Hout. now apply emits_check_record. Qed.

Lemma on_listed_file_search (opts : Values) (regexp : RegexObject)
    (print_file_prefix : bool) (seqfiles_arg : list string) (fseq : string) :
  In fseq seqfiles_arg ->
  emits (on_listed_file seqfiles_arg)
        (search_file opts regexp print_file_prefix fseq).
Proof.
  intros Hin. unfold search_file. rewrite guess_seqformat_nonempty.
  apply emits_bind_value with (Q := fun h => h = handle_of fseq).
  - unfold handle_of. destruct (String.eqb_spec fseq "-") as [-> | Hne];
      [apply emits_ret|].
    destruct (Py.slice_from fseq (-3) =? ".gz") eqn:Hgz;
      apply emits_open; exists fseq; repeat split; try assumption;
      unfold handle_of; apply String.eqb_neq in Hne; now rewrite Hne, Hgz.
  - intros s a. unfold handle_of, open_.
    destruct (fseq =? "-"); [now intros [= <-]|].
    destruct (Py.slice_from fseq (-3) =? ".gz");
      match goal with
      | |- context [open_error ?w ?h] => destruct (open_error w h)
      end; try discriminate; now intros [= <-].
  - intros fhandle ->.
    apply emits_bind; [now apply emits_LOG_log | intros _].
    apply emits_bind.
    { apply emits_parse. now exists fseq. }
    intros records. apply emits_bind.
    + apply emits_for_records. intros record. now apply emits_check_record_any.
    + intros _. unfold handle_of.
      destruct (String.eqb_spec fseq "-") as [-> | Hne]; [apply emits_ret|].
      assert (Hh : handle_of fseq
                   = if Py.slice_from fseq (-3) =? ".gz" then gzip_open fseq
                     else open_rU fseq).
      { unfold handle_of. apply String.eqb_neq in Hne. now rewrite Hne. }
      rewrite <- Hh.
      destruct (handle_eqb (handle_of fseq) sys_stdin); [apply emits_ret|].
      apply emits_close. now exists fseq.
Qed.

(** X13: Every event on a file is on one of the files of the command line,
    through [gzip.open] when its name ends in [.gz] and through [open]
    otherwise, and in the format guessed from its name; standard input
    ("-") is parsed as it is, and is never looked for on disk, opened or
    closed. *)
Theorem files_read_as_named (opts : Values) (args : list string)
    (s : state World) :
  Forall (on_listed_file (tl args)) (trace (main opts args s)).
Proof.
  unfold main. apply emits_bind.
  - now apply emits_compile_pattern.
  - intros regexp. apply emits_bind.
    + apply emits_for_each. intros fseq Hin. unfold check_exists.
      apply emits_bind.
      2:{ intro missing. apply emits_when. apply emits_bind.
          - now apply emits_LOG_log.
          - intros _. apply emits_sys_exit. }
      destruct (String.eqb_spec fseq "-") as [-> | Hne]; simpl;
        [apply emits_ret|].
      apply emits_bind; [|intro; apply emits_ret].
      apply emits_path_exists. now split.
    + intros _. apply emits_for_each. intros fseq Hin.
      now apply on_listed_file_search.
Qed.

(** X14: The files are all looked for before any of them is opened: in a
    run no [os.path.exists] comes after an event on a file. *)
Theorem files_checked_before_any_is_opened (opts : Values)
    (args : list string) (s : state World) :
  filter (fun e => is_exists e || file_event e) (trace (main opts args s))
  = (filter is_exists (trace (main opts args s))
     ++ filter file_event (trace (main opts args s)))%list.
Proof.
  assert (Hleft : forall t,
            Forall (fun e => file_event e = false) t ->
            filter (fun e => is_exists e || file_event e) t = filter is_exists t
            /\ filter file_event t = []).
  { intros t Ht. induction Ht as [|e t He Ht [IH1 IH2]]; [now split|].
    simpl. rewrite He, orb_false_r, IH1, IH2. now destruct (is_exists e). }
  assert (Hright : forall t,
            Forall (fun e => is_exists e = false) t ->
            filter (fun e => is_exists e || file_event e) t = filter file_event t
            /\ filter is_exists t = []).
  { intros t Ht. induction Ht as [|e t He Ht [IH1 IH2]]; [now split|].
    simpl. rewrite He, IH1, IH2. now destruct (file_event e). }
  unfold main. rewrite trace_bind, !filter_app.
  destruct (Hleft (trace (compile_pattern opts args s))) as [E1 E2].
  { eapply Forall_impl; [|apply quiet_compile_pattern]. now intros e [He _]. }
  rewrite E1, E2.
  assert (E3 : filter is_exists (trace (compile_pattern opts args s)) = []).
  { apply filter_none. now apply emits_compile_pattern. }
  rewrite E3. cbn [app].
  destruct (outcome (compile_pattern opts args s)) as [regexp | code | e];
    [|reflexivity..].
  rewrite trace_bind, !filter_app.
  destruct (Hleft (trace (for_each (tl args) check_exists
                            (final (compile_pattern opts args s)))))
    as [E4 E5].
  { eapply Forall_impl; [|apply quiet_check_exists]. now intros e [He _]. }
  rewrite E4, E5. simpl app.
  destruct (outcome (for_each (tl args) check_exists _)); simpl;
    rewrite ?app_nil_r; try reflexivity.
  match goal with
  | |- context [for_each ?xs (search_file ?o ?r ?b) ?s'] =>
      destruct (Hright (trace (for_each xs (search_file o r b) s')))
        as [E6 E7]
  end.
  { apply emits_for_each. intros fseq _. now apply emits_search_file. }
  now rewrite E6, E7, app_nil_r.
Qed.

End Touched.

(** ** Errors *)

Section Errors.

Context {World : Type} `{Collaborators World}.

Local Abbreviation M := (Script World).

(** *** A missing file *)

Lemma check_exists_present (fseq : string) (s : state World) :
  (fseq =? "-") || os_path_exists (world s) fseq = true ->
  check_exists fseq s
  = (Return tt, s, if fseq =? "-" then [] else [Exists fseq]).
Proof.
  unfold check_exists, path_exists, when, bind, ret.
  destruct (fseq =? "-"); simpl; [reflexivity|].
  now intros ->.
Qed.

Lemma check_exists_absent (fseq : string) (s : state World) :
  fseq <> "-" -> os_path_exists (world s) fseq = false ->
  (level s <= logging.CRITICAL)%Z ->
  outcome (check_exists fseq s) = SystemExit 1 /\
  trace (check_exists fseq s)
  = [ Exists fseq;
      Stderr ("CRITICAL [" ++ clock s 0 ++ "]: "
              ++ ("input file " ++ fseq ++ " does not exist." ++ nl) ++ nl) ].
Proof.
  intros Hne Hmissing Hlevel.
  unfold check_exists, path_exists, when, bind, ret, sys_exit, LOG_fatal, LOG_log.
  apply String.eqb_neq in Hne. rewrite Hne. cbn -[String.append nl Z.geb].
  rewrite Hmissing. cbn -[String.append nl Z.geb].
  replace (logging.CRITICAL >=? level s)%Z with true
    by (symmetry; apply Z.geb_le; exact Hlevel).
  split; reflexivity.
Qed.

Lemma check_files_first_missing (pre post : list string) (fseq : string)
    (s : state World) :
  all_exist (world s) pre = true ->
  fseq <> "-" -> os_path_exists (world s) fseq = false ->
  (level s <= logging.CRITICAL)%Z ->
  trace (for_each (pre ++ fseq :: post) check_exists s)
  = (map Exists (filter (fun x => negb (x =? "-")) pre)
     ++ [ Exists fseq;
          Stderr ("CRITICAL [" ++ clock s 0 ++ "]: "
                  ++ ("input file " ++ fseq ++ " does not exist." ++ nl)
                  ++ nl) ])%list.
Proof.
  intros Hpre Hne Hmissing Hlevel.
  induction pre as [|x pre IH]; simpl app; simpl for_each; rewrite trace_bind.
  - destruct (check_exists_absent fseq s Hne Hmissing Hlevel) as [Hout Htr].
    now rewrite Hout, Htr, app_nil_r.
  - simpl in Hpre. apply andb_true_iff in Hpre as [Hx Hpre].
    rewrite (check_exists_present x s Hx). cbn [outcome trace final fst snd].
    rewrite (IH Hpre). simpl filter.
    now destruct (x =? "-").
Qed.

Lemma compile_pattern_level (opts : Values) (args : list string)
    (s : state World) :
  (level s <= logging.CRITICAL)%Z ->
  (level (final (compile_pattern opts args s)) <= logging.CRITICAL)%Z.
Proof.
  pose (L := fun l : Z => (l <= logging.CRITICAL)%Z).
  assert (Hcp : under (fun s : state World => L (level s)) (fun _ => True)
                  (compile_pattern opts args)).
  { unfold compile_pattern, parser_error, Seq_reverse_complement, re_compile,
      LOG_debug, LOG_info.
    repeat first
      [ under_step L
      | apply (under_emit L); exact I
      | apply (under_setLevel L); unfold L; discriminate
      | apply (under_LOG_log L); intros l _; right; intros time; exact I ]. }
  intros Hs. apply (Hcp s Hs).
Qed.

(** X15: When files are missing, the run looks for the files in their order
    up to the first that is missing, names that one in the line it logs
    at the level CRITICAL, and looks no further. *)
Theorem first_missing_file_reported (opts : Values) (p : string)
    (pre post : list string) (fseq : string) (regexp : RegexObject)
    (s : state World) :
  compiled_pattern opts p = inr regexp ->
  all_exist (world s) pre = true ->
  fseq <> "-" -> os_path_exists (world s) fseq = false ->
  (level s <= logging.CRITICAL)%Z ->
  let t := trace (main opts (p :: pre ++ fseq :: post) s) in
  filter is_exists t
  = (map Exists (filter (fun x => negb (x =? "-")) pre) ++ [Exists fseq])%list
  /\
  exists time,
    In (Stderr ("CRITICAL [" ++ time ++ "]: "
                ++ ("input file " ++ fseq ++ " does not exist." ++ nl) ++ nl))
       t.
Proof.
  intros Hp Hpre Hne Hmissing Hlevel. cbv zeta.
  set (files := (pre ++ fseq :: post)%list).
  assert (Hfiles : files <> []) by (subst files; now destruct pre).
  set (s' := final (compile_pattern opts (p :: files) s)).
  assert (Hw : world s' = world s) by apply keeps_world_compile_pattern.
  assert (Htr : trace (main opts (p :: files) s)
                = (trace (compile_pattern opts (p :: files) s)
                   ++ trace (for_each files check_exists s'))%list).
  { unfold main. rewrite trace_bind.
    rewrite (compile_pattern_compiled opts p files s Hfiles), Hp.
    simpl tl. rewrite trace_bind. fold s'.
    rewrite (check_exists_missing files fseq s'); [now rewrite app_nil_r|..].
    - subst files. apply in_or_app. right. now left.
    - exact Hne.
    - now rewrite Hw. }
  rewrite Htr.
  subst files.
  rewrite (check_files_first_missing pre post fseq s');
    [| now rewrite Hw | exact Hne | now rewrite Hw
     | now apply compile_pattern_level ].
  split.
  - rewrite filter_app.
    rewrite (filter_none is_exists (trace (compile_pattern _ _ _)))
      by now apply emits_compile_pattern.
    rewrite filter_app. simpl.
    f_equal. induction (filter (fun x => negb (x =? "-")) pre) as [|x l IH];
      [reflexivity | simpl; now rewrite IH].
  - exists (clock s' 0). apply in_or_app. right. apply in_or_app. right.
    right. now left.
Qed.

End Errors.

Section MoreErrors.

Context {World : Type} `{Collaborators World}.

Local Abbreviation M := (Script World).

(** *** The parser raises *)

(** X16: When the parser raises in the middle of a file, the records it
    yielded before are already written, the exception leaves the loop,
    and the file is left open. *)
Theorem parse_error_after_partial_output (opts : Values)
    (regexp : RegexObject) (print_file_prefix : bool) (fseq : string)
    (e : exn) (s : state World) :
  search_in opts = "seq" \/ search_in opts = "id" ->
  open_failure (world s) fseq = None ->
  let fmt := guess_seqformat fseq in
  let records := fst (SeqIO_parse (handle_of fseq) fmt (world s)) in
  raised records = Some e ->
  let r := search_file opts regexp print_file_prefix fseq s in
  outcome r = Uncaught e /\
  stdout_writes (trace r)
  = map (two_lines (if print_file_prefix then fseq ++ ":" else "") fmt)
        (filter (selected opts regexp fmt) (yielded records)) /\
  ~ In (Close (handle_of fseq)) (trace r).
Proof.
  intros Hin Hopen fmt records Hraised r.
  pose proof (search_file_run opts regexp print_file_prefix fseq s Hin) as Hrun.
  cbv zeta in Hrun. rewrite Hopen in Hrun. destruct Hrun as (Hwr & Hout & _).
  fold fmt in Hwr, Hout. fold records in Hwr, Hout. rewrite Hraised in Hout.
  split; [exact Hout|]. split; [exact Hwr|].
  subst r. unfold search_file. rewrite guess_seqformat_nonempty.
  rewrite trace_bind.
  destruct (open_file_run fseq s) as (Hoout & Hofin & Hotr).
  { intros Hne. unfold open_failure in Hopen.
    apply String.eqb_neq in Hne. now rewrite Hne in Hopen. }
  cbv zeta in Hoout, Hofin, Hotr. rewrite Hoout, Hofin.
  destruct (search_opened_file opts regexp print_file_prefix fseq fmt
              (handle_of fseq) s) as [_ Hrtr].
  cbv zeta in Hrtr. fold fmt. rewrite Hrtr.
  rewrite for_records_outcome by exact Hin.
  fold records. rewrite Hraised, app_nil_r.
  intros Hclose. apply in_app_or in Hclose as [Hclose | Hclose].
  - assert (Hq : Forall (fun ev => ev <> Close (handle_of fseq))
              (trace
                 ((if fseq =? "-" then ret sys_stdin
                   else if Py.slice_from fseq (-3) =? ".gz"
                        then open_ (gzip_open fseq)
                        else open_ (open_rU fseq)) s))).
    { destruct (fseq =? "-"); [apply emits_ret|].
      destruct (Py.slice_from fseq (-3) =? ".gz");
        apply emits_open; discriminate. }
    rewrite Forall_forall in Hq. now apply (Hq _ Hclose).
  - assert (Hq : Forall no_handle
              (trace (LOG_info ("Checking file " ++ fseq ++ " (format "
                                ++ fmt ++ ")") s)
               ++ Parse (handle_of fseq) fmt
                  :: trace (for_records records
                              (check_record opts regexp print_file_prefix
                                 fseq fmt)
                              (final (parse (handle_of fseq) fmt
                                 (final (LOG_info ("Checking file " ++ fseq
                                    ++ " (format " ++ fmt ++ ")") s))))))).
    { apply Forall_app. split; [now apply emits_LOG_log|].
      constructor; [exact I|].
      apply emits_for_records. intros record. now apply emits_check_record. }
    rewrite Forall_forall in Hq. exact (Hq _ Hclose).
Qed.

(** *** A place to search in that is neither [seq] nor [id] *)

Lemma check_record_invalid (opts : Values) (regexp : RegexObject)
    (print_file_prefix : bool) (fseq fmt : string) (record : SeqRecord.t)
    (s : state World) :
  search_in opts <> "seq" -> search_in opts <> "id" ->
  check_record opts regexp print_file_prefix fseq fmt record s
  = (Uncaught (Exception "ValueError"
                 "internal error...not sure where to search in"), s, []).
Proof.
  intros Hseq Hid. unfold check_record, bind, raise.
  apply String.eqb_neq in Hseq, Hid. now rewrite Hseq, Hid.
Qed.

Lemma emits_search_file_body (P : event -> Prop) (opts : Values)
    (regexp : RegexObject) (print_file_prefix : bool) (fseq : string) :
  (forall text, P (Stderr text)) ->
  (forall h, P (Open h)) -> (forall h fmt, P (Parse h fmt)) ->
  (forall h, P (Close h)) ->
  (forall fmt record,
      emits P (check_record opts regexp print_file_prefix fseq fmt record)) ->
  emits P (search_file opts regexp print_file_prefix fseq).
Proof.
  intros Herr Hopen Hparse Hclose Hbody. unfold search_file.
  apply emits_bind; [|intro fhandle].
  { destruct (fseq =? "-"); [apply emits_ret|].
    destruct (Py.slice_from fseq (-3) =? ".gz"); apply emits_open, Hopen. }
  apply emits_bind; [now apply emits_LOG_log | intros _].
  apply emits_bind; [apply emits_parse, Hparse | intros records].
  apply emits_bind.
  - apply emits_for_records. intros record. apply Hbody.
  - intros _. apply emits_when, emits_close, Hclose.
Qed.

(** X17: With a place to search in other than [seq] and [id] (which
    optparse does not let through) the first record read raises the
    ValueError of line 180, and a run writes nothing to standard
    output. *)
Theorem invalid_search_in_prints_nothing (opts : Values)
    (args : list string) (s : state World) :
  search_in opts <> "seq" -> search_in opts <> "id" ->
  stdout (trace (main opts args s)) = "" /\
  forall regexp print_file_prefix fseq fmt record s',
    outcome (check_record opts regexp print_file_prefix fseq fmt record s')
    = Uncaught (Exception "ValueError"
                  "internal error...not sure where to search in").
Proof.
  intros Hseq Hid. split.
  - unfold stdout. rewrite stdout_writes_none; [reflexivity|].
    unfold main. apply emits_bind.
    + now apply emits_compile_pattern.
    + intros regexp. apply emits_bind.
      * apply emits_for_each. intros fseq _. now apply emits_check_exists.
      * intros _. apply emits_for_each. intros fseq _.
        apply emits_search_file_body; try easy.
        intros fmt record s'.
        rewrite check_record_invalid by assumption. constructor.
  - intros regexp print_file_prefix fseq fmt record s'.
    now rewrite check_record_invalid.
Qed.

End MoreErrors.

(** ** The command line *)

Module optparse_facts.

Import optparse.

Lemma process_args_nil (optn : Option_) (opt : string) (value : option string)
    (values values' : Values) (l : list string) :
  process optn opt value values = Args values' l -> l = [].
Proof.
  unfold process.
  destruct (action optn), (dest optn), value; try destruct (choices optn);
    try destruct (existsb _ _); now intros [= _ <-].
Qed.

Lemma process_long_opt_shorter (options : list Option_) (arg : string)
    (rargs rargs' : list string) (values values' : Values) :
  process_long_opt options arg rargs values = Args values' rargs' ->
  (length rargs' <= length rargs)%nat.
Proof.
  unfold process_long_opt.
  destruct (split_equals arg) as [[opt next_arg]|];
    destruct (match_abbrev _ _) as [e | opt']; try discriminate;
    destruct (find_long options opt') as [optn|]; try discriminate;
    destruct (takes_value optn); try discriminate.
  - destruct (process optn opt' (Some next_arg) values); try discriminate.
    now intros [= _ <-].
  - destruct rargs as [|value rargs]; [discriminate|].
    destruct (process optn opt' (Some value) values); try discriminate.
    intros [= _ <-]. simpl. lia.
  - destruct (process optn opt' None values); try discriminate.
    now intros [= _ <-].
Qed.

Lemma process_short_opts_shorter (options : list Option_) (cluster : string)
    (rargs rargs' : list string) (values values' : Values) :
  process_short_opts options cluster rargs values = Args values' rargs' ->
  (length rargs' <= length rargs)%nat.
Proof.
  revert values. induction cluster as [|ch cluster IH]; intros values; simpl.
  - now intros [= _ <-].
  - destruct (find_short options _) as [optn|]; [|discriminate].
    destruct (takes_value optn).
    + destruct cluster as [|c cluster].
      * destruct rargs as [|value rargs]; [discriminate|].
        destruct (process optn _ (Some value) values); try discriminate.
        intros [= _ <-]. simpl. lia.
      * destruct (process optn _ _ values); try discriminate.
        now intros [= _ <-].
    + destruct (process optn _ None values); try discriminate.
      apply IH.
Qed.

(** The loop of [_process_args] comes to its end: there is fuel enough
    in one turn for each argument. *)
Lemma process_args_answers (options : list Option_) (fuel : nat)
    (largs rargs : list string) (values : Values) :
  (length rargs < fuel)%nat ->
  exists r, process_args fuel options largs rargs values = Some r.
Proof.
  revert largs rargs values.
  induction fuel as [|fuel IH]; intros largs rargs values Hfuel; [lia|].
  simpl. destruct rargs as [|arg rest]; [eauto|].
  simpl in Hfuel.
  destruct (arg =? "--"); [eauto|].
  destruct (Py.slice_to arg 2 =? "--").
  - destruct (process_long_opt options arg rest values) as [v rargs'| |e] eqn:Hlong;
      eauto.
    apply IH. apply process_long_opt_shorter in Hlong. lia.
  - destruct ((Py.slice_to arg 1 =? "-") && (1 <? String.length arg)%nat).
    + destruct (process_short_opts options _ rest values) as [v rargs'| |e]
        eqn:Hshort; eauto.
      apply IH. apply process_short_opts_shorter in Hshort. lia.
    + apply IH. lia.
Qed.

(** *** The values are valid *)

Lemma process_valid (optn : Option_) (opt : string) (value : option string)
    (values values' : Values) (l : list string) :
  In optn cmdline_parser -> valid values ->
  process optn opt value values = Args values' l -> valid values'.
Proof.
  intros Hin Hvalid. unfold cmdline_parser in Hin. simpl in Hin.
  repeat destruct Hin as [<- | Hin]; try contradiction;
    unfold process; simpl; try discriminate;
    try (intros [= <- _]; exact Hvalid).
  destruct value as [v|]; [|intros [= <- _]; exact Hvalid].
  destruct (String.eqb_spec v "seq") as [-> | _]; simpl.
  - intros [= <- _]. now left.
  - destruct (String.eqb_spec v "id") as [-> | _]; simpl; [|discriminate].
    intros [= <- _]. now right.
Qed.

Lemma find_long_In (options : list Option_) (opt : string) (optn : Option_) :
  find_long options opt = Some optn -> In optn options.
Proof. intros Hf. now apply find_some in Hf. Qed.

Lemma find_short_In (options : list Option_) (opt : string) (optn : Option_) :
  find_short options opt = Some optn -> In optn options.
Proof. intros Hf. now apply find_some in Hf. Qed.

Lemma process_long_opt_valid (arg : string) (rargs rargs' : list string)
    (values values' : Values) :
  valid values ->
  process_long_opt cmdline_parser arg rargs values = Args values' rargs' ->
  valid values'.
Proof.
  intros Hvalid. unfold process_long_opt.
  destruct (split_equals arg) as [[opt next_arg]|];
    destruct (match_abbrev _ _) as [e | opt']; try discriminate;
    destruct (find_long cmdline_parser opt') as [optn|] eqn:Hfind;
    try discriminate; apply find_long_In in Hfind;
    destruct (takes_value optn); try discriminate.
  - destruct (process optn opt' (Some next_arg) values) eqn:Hp; try discriminate.
    intros [= <- _]. eapply process_valid; eauto.
  - destruct rargs as [|value rargs]; [discriminate|].
    destruct (process optn opt' (Some value) values) eqn:Hp; try discriminate.
    intros [= <- _]. eapply process_valid; eauto.
  - destruct (process optn opt' None values) eqn:Hp; try discriminate.
    intros [= <- _]. eapply process_valid; eauto.
Qed.

Lemma process_short_opts_valid (cluster : string) (rargs rargs' : list string)
    (values values' : Values) :
  valid values ->
  process_short_opts cmdline_parser cluster rargs values = Args values' rargs' ->
  valid values'.
Proof.
  revert values. induction cluster as [|ch cluster IH]; intros values Hvalid.
  - simpl. now intros [= <- _].
  - cbn [process_short_opts].
    destruct (find_short cmdline_parser _) as [optn|] eqn:Hfind; [|discriminate].
    apply find_short_In in Hfind.
    destruct (takes_value optn).
    + destruct cluster as [|c cluster].
      * destruct rargs as [|value rargs]; [discriminate|].
        destruct (process optn _ (Some value) values) eqn:Hp; try discriminate.
        intros [= <- _]. eapply process_valid; eauto.
      * destruct (process optn _ _ values) eqn:Hp; try discriminate.
        intros [= <- _]. eapply process_valid; eauto.
    + destruct (process optn _ None values) eqn:Hp; try discriminate.
      apply IH. eapply process_valid; eauto.
Qed.

Lemma process_args_valid (fuel : nat) (largs rargs args : list string)
    (values values' : Values) :
  valid values ->
  process_args fuel cmdline_parser largs rargs values = Some (Args values' args) ->
  valid values'.
Proof.
  revert largs rargs values.
  induction fuel as [|fuel IH]; intros largs rargs values Hvalid; [discriminate|].
  cbn [process_args]. destruct rargs as [|arg rest]; [now intros [= <- _]|].
  destruct (arg =? "--"); [now intros [= <- _]|].
  destruct (Py.slice_to arg 2 =? "--").
  - destruct (process_long_opt cmdline_parser arg rest values) eqn:Hlong;
      try discriminate.
    apply IH. eapply process_long_opt_valid; eauto.
  - destruct ((Py.slice_to arg 1 =? "-") && (1 <? String.length arg)%nat).
    + destruct (process_short_opts cmdline_parser _ rest values) eqn:Hshort;
        try discriminate.
      apply IH. eapply process_short_opts_valid; eauto.
    + now apply IH.
Qed.

(** *** Positional arguments *)

Lemma slice_to_1 (c : ascii) (s : string) :
  Py.slice_to (String c s) 1 = String c "".
Proof.
  unfold Py.slice_to, Py.clip, Py.len. simpl String.length.
  replace (1 <? 0)%Z with false by reflexivity.
  rewrite Z.min_l by lia. reflexivity.
Qed.

Lemma slice_to_2 (c d : ascii) (s : string) :
  Py.slice_to (String c (String d s)) 2 = String c (String d "").
Proof.
  unfold Py.slice_to, Py.clip, Py.len. simpl String.length.
  replace (2 <? 0)%Z with false by reflexivity.
  rewrite Z.min_l by lia. reflexivity.
Qed.

Lemma positional_tests (arg : string) :
  positional arg = true ->
  (arg =? "--") = false /\
  (Py.slice_to arg 2 =? "--") = false /\
  (Py.slice_to arg 1 =? "-") && (1 <? String.length arg)%nat = false.
Proof.
  destruct arg as [|c [|d s]].
  - now intros _.
  - intros _. repeat split.
    + simpl. now destruct (Ascii.eqb c "-").
    + unfold Py.slice_to, Py.clip, Py.len; simpl.
      now destruct (Ascii.eqb c "-").
    + now rewrite andb_false_r.
  - intros Hpos.
    assert (Hc : Ascii.eqb c "-" = false).
    { destruct (Ascii.eqb_spec c "-") as [-> | Hc]; [discriminate | reflexivity]. }
    rewrite slice_to_2, slice_to_1. simpl. rewrite Hc. now repeat split.
Qed.

Lemma process_args_positional (options : list Option_) (fuel : nat)
    (largs rargs : list string) (values : Values) :
  (length rargs < fuel)%nat -> forallb positional rargs = true ->
  process_args fuel options largs rargs values
  = Some (Args values (largs ++ rargs)%list).
Proof.
  revert largs rargs.
  induction fuel as [|fuel IH]; intros largs rargs Hfuel Hpos; [lia|].
  destruct rargs as [|arg rest]; simpl; [now rewrite app_nil_r|].
  simpl in Hfuel, Hpos. apply andb_true_iff in Hpos as [Harg Hrest].
  destruct (positional_tests arg Harg) as (-> & -> & ->).
  rewrite IH by (assumption || lia).
  now rewrite <- app_assoc.
Qed.

(** *** Flags *)

Lemma set_true_set_string (values : Values) (d d' x : string) :
  set_string (set_true values d) d' x = set_true (set_string values d' x) d.
Proof. unfold set_string, set_true. now destruct (d' =? "search_in"). Qed.

Lemma orb_swap (a b c : bool) : a || (b || c) = b || (a || c).
Proof. now destruct a, b, c. Qed.

Lemma set_true_comm (values : Values) (d d' : string) :
  set_true (set_true values d) d' = set_true (set_true values d') d.
Proof. unfold set_true; simpl. f_equal; apply orb_swap. Qed.

Lemma process_with_flag (optn : Option_) (opt : string)
    (value : option string) (values : Values) (d : string) :
  process optn opt value (set_true values d)
  = with_flag d (process optn opt value values).
Proof.
  unfold process.
  destruct (action optn), (dest optn) as [d'|], value as [v|]; simpl;
    try reflexivity;
    try (destruct (choices optn) as [cs|]; [destruct (existsb _ cs)|]; simpl);
    rewrite ?set_true_set_string, ?(set_true_comm values d d'); reflexivity.
Qed.

End optparse_facts.

Module optparse_flags.

Import optparse optparse_facts.

Lemma process_long_opt_with_flag (options : list Option_) (arg : string)
    (rargs : list string) (values : Values) (d : string) :
  process_long_opt options arg rargs (set_true values d)
  = with_flag d (process_long_opt options arg rargs values).
Proof.
  unfold process_long_opt.
  destruct (split_equals arg) as [[opt next_arg]|];
    destruct (match_abbrev _ _) as [e | opt']; try reflexivity;
    destruct (find_long options opt') as [optn|]; try reflexivity;
    destruct (takes_value optn); try reflexivity;
    try (destruct rargs as [|value rargs]; [reflexivity|]);
    rewrite process_with_flag;
    match goal with
    | |- context [process ?o ?a ?b ?c] => now destruct (process o a b c)
    end.
Qed.

Lemma process_short_opts_with_flag (options : list Option_)
    (cluster : string) (rargs : list string) (values : Values) (d : string) :
  process_short_opts options cluster rargs (set_true values d)
  = with_flag d (process_short_opts options cluster rargs values).
Proof.
  revert values. induction cluster as [|ch cluster IH]; intros values;
    [reflexivity|].
  cbn [process_short_opts].
  destruct (find_short options _) as [optn|]; [|reflexivity].
  destruct (takes_value optn).
  - destruct cluster as [|c cluster].
    + destruct rargs as [|value rargs]; [reflexivity|].
      rewrite process_with_flag.
      now destruct (process optn _ (Some value) values).
    + rewrite process_with_flag.
      now destruct (process optn _ _ values).
  - rewrite process_with_flag.
    destruct (process optn _ None values); try reflexivity.
    apply IH.
Qed.

(** A flag that is set stays set, and changes nothing else of what
    follows. *)
Lemma process_args_with_flag (options : list Option_) (fuel : nat)
    (largs rargs : list string) (values : Values) (d : string) :
  process_args fuel options largs rargs (set_true values d)
  = option_map (with_flag d) (process_args fuel options largs rargs values).
Proof.
  revert largs rargs values.
  induction fuel as [|fuel IH]; intros largs rargs values; [reflexivity|].
  cbn [process_args]. destruct rargs as [|arg rest]; [reflexivity|].
  destruct (arg =? "--"); [reflexivity|].
  destruct (Py.slice_to arg 2 =? "--").
  - rewrite process_long_opt_with_flag.
    destruct (process_long_opt options arg rest values); try reflexivity.
    apply IH.
  - destruct ((Py.slice_to arg 1 =? "-") && (1 <? String.length arg)%nat).
    + rewrite process_short_opts_with_flag.
      destruct (process_short_opts options _ rest values); try reflexivity.
      apply IH.
    + apply IH.
Qed.

(** One turn more of fuel than needed changes nothing. *)
Lemma process_args_more_fuel (options : list Option_) (fuel : nat)
    (largs rargs : list string) (values : Values) (r : Parsed) :
  process_args fuel options largs rargs values = Some r ->
  process_args (S fuel) options largs rargs values = Some r.
Proof.
  revert largs rargs values.
  induction fuel as [|fuel IH]; intros largs rargs values; [discriminate|].
  intros Hr. cbn [process_args] in Hr |- *.
  destruct rargs as [|arg rest]; [exact Hr|].
  destruct (arg =? "--"); [exact Hr|].
  destruct (Py.slice_to arg 2 =? "--").
  - destruct (process_long_opt options arg rest values); try exact Hr.
    now apply IH.
  - destruct ((Py.slice_to arg 1 =? "-") && (1 <? String.length arg)%nat).
    + destruct (process_short_opts options _ rest values); try exact Hr.
      now apply IH.
    + now apply IH.
Qed.

Lemma process_args_fuel (options : list Option_) (fuel k : nat)
    (largs rargs : list string) (values : Values) (r : Parsed) :
  process_args fuel options largs rargs values = Some r ->
  process_args (fuel + k) options largs rargs values = Some r.
Proof.
  intros Hr. induction k as [|k IH].
  - now rewrite Nat.add_0_r.
  - rewrite Nat.add_succ_r. now apply process_args_more_fuel.
Qed.

(** *** The end of the options *)

Lemma process_long_opt_app (options : list Option_) (arg : string)
    (rargs rargs' more : list string) (values values' : Values) :
  process_long_opt options arg rargs values = Args values' rargs' ->
  process_long_opt options arg (rargs ++ more) values
  = Args values' (rargs' ++ more).
Proof.
  unfold process_long_opt.
  destruct (split_equals arg) as [[opt next_arg]|];
    destruct (match_abbrev _ _) as [e | opt']; try discriminate;
    destruct (find_long options opt') as [optn|]; try discriminate;
    destruct (takes_value optn); try discriminate.
  - simpl. destruct (process optn opt' (Some next_arg) values); try discriminate.
    now intros [= <- <-].
  - destruct rargs as [|value rargs]; [discriminate|]. simpl.
    destruct (process optn opt' (Some value) values); try discriminate.
    now intros [= <- <-].
  - destruct (process optn opt' None values); try discriminate.
    now intros [= <- <-].
Qed.

Lemma process_short_opts_app (options : list Option_) (cluster : string)
    (rargs rargs' more : list string) (values values' : Values) :
  process_short_opts options cluster rargs values = Args values' rargs' ->
  process_short_opts options cluster (rargs ++ more) values
  = Args values' (rargs' ++ more).
Proof.
  revert values. induction cluster as [|ch cluster IH]; intros values.
  - simpl. now intros [= <- <-].
  - cbn [process_short_opts].
    destruct (find_short options _) as [optn|]; [|discriminate].
    destruct (takes_value optn).
    + destruct cluster as [|c cluster].
      * destruct rargs as [|value rargs]; [discriminate|]. simpl.
        destruct (process optn _ (Some value) values); try discriminate.
        now intros [= <- <-].
      * destruct (process optn _ _ values); try discriminate.
        now intros [= <- <-].
    + destruct (process optn _ None values); try discriminate.
      apply IH.
Qed.

Lemma process_long_opt_left (options : list Option_) (arg : string)
    (rargs rargs' : list string) (values values' : Values) (x : string) :
  process_long_opt options arg rargs values = Args values' rargs' ->
  In x rargs' -> In x rargs.
Proof.
  unfold process_long_opt.
  destruct (split_equals arg) as [[opt next_arg]|];
    destruct (match_abbrev _ _) as [e | opt']; try discriminate;
    destruct (find_long options opt') as [optn|]; try discriminate;
    destruct (takes_value optn); try discriminate.
  - destruct (process optn opt' (Some next_arg) values); try discriminate.
    now intros [= _ <-].
  - destruct rargs as [|value rargs]; [discriminate|].
    destruct (process optn opt' (Some value) values); try discriminate.
    intros [= _ <-] Hx. now right.
  - destruct (process optn opt' None values); try discriminate.
    now intros [= _ <-].
Qed.

Lemma process_short_opts_left (options : list Option_) (cluster : string)
    (rargs rargs' : list string) (values values' : Values) (x : string) :
  process_short_opts options cluster rargs values = Args values' rargs' ->
  In x rargs' -> In x rargs.
Proof.
  revert values. induction cluster as [|ch cluster IH]; intros values.
  - simpl. now intros [= _ <-].
  - cbn [process_short_opts].
    destruct (find_short options _) as [optn|]; [|discriminate].
    destruct (takes_value optn).
    + destruct cluster as [|c cluster].
      * destruct rargs as [|value rargs]; [discriminate|].
        destruct (process optn _ (Some value) values); try discriminate.
        intros [= _ <-] Hx. now right.
      * destruct (process optn _ _ values); try discriminate.
        now intros [= _ <-].
    + destruct (process optn _ None values); try discriminate.
      apply IH.
Qed.

Lemma process_args_terminator (options : list Option_) (fuel : nat)
    (largs rargs args rest : list string) (values values' : Values) :
  ~ In "--" rargs ->
  process_args fuel options largs rargs values = Some (Args values' args) ->
  process_args (S fuel) options largs (rargs ++ "--" :: rest) values
  = Some (Args values' (args ++ rest)%list).
Proof.
  revert largs rargs values.
  induction fuel as [|fuel IH]; intros largs rargs values Hno Hr;
    [discriminate|].
  destruct rargs as [|arg rargs].
  - simpl in Hr. injection Hr as <- <-. reflexivity.
  - assert (Harg : (arg =? "--") = false).
    { apply String.eqb_neq. intros ->. apply Hno. now left. }
    change ((arg :: rargs) ++ "--" :: rest)%list
      with (arg :: (rargs ++ "--" :: rest))%list.
    cbn [process_args] in Hr. remember (S fuel) as fuel1 eqn:Efuel.
    cbn [process_args]. subst fuel1. rewrite Harg in *.
    destruct (Py.slice_to arg 2 =? "--").
    + destruct (process_long_opt options arg rargs values) as [v r'| |e]
        eqn:Hlong; try discriminate.
      rewrite (process_long_opt_app _ _ _ _ ("--" :: rest) _ _ Hlong).
      apply IH; [|exact Hr]. intros Hin. apply Hno. right.
      now apply (process_long_opt_left _ _ _ _ _ _ _ Hlong).
    + destruct ((Py.slice_to arg 1 =? "-") && (1 <? String.length arg)%nat).
      * destruct (process_short_opts options _ rargs values) as [v r'| |e]
          eqn:Hshort; try discriminate.
        rewrite (process_short_opts_app _ _ _ _ ("--" :: rest) _ _ Hshort).
        apply IH; [|exact Hr]. intros Hin. apply Hno. right.
        now apply (process_short_opts_left _ _ _ _ _ _ _ Hshort).
      * apply IH; [|exact Hr]. intros Hin. apply Hno. now right.
Qed.

End optparse_flags.

Module command_line.

Import optparse optparse_facts optparse_flags.

Lemma default_values : get_default_values cmdline_parser = cmdline_defaults.
Proof. reflexivity. Qed.

(** X18: Arguments that begin with no dash (the dash alone, for standard
    input, is one) are the positional arguments, in their order, and the
    options keep their defaults: the identifier is searched, the case
    matters, the match is not inverted. *)
Theorem parse_args_positional (argv : list string) :
  forallb positional argv = true ->
  parse_args cmdline_parser argv = Some (Args cmdline_defaults argv).
Proof.
  intros Hpos. unfold parse_args. rewrite default_values.
  now rewrite process_args_positional by (assumption || lia).
Qed.

Lemma parse_args_positional_witness :
  forallb positional ["ACGT"; "a.fa"; "-"] = true /\
  parse_args cmdline_parser ["ACGT"; "a.fa"; "-"]
  = Some (Args cmdline_defaults ["ACGT"; "a.fa"; "-"]).
Proof.
  split; [reflexivity|].
  exact (parse_args_positional ["ACGT"; "a.fa"; "-"] eq_refl).
Defined.

(** X19: A flag given first sets its destination and changes nothing else
    of what the rest of the command line gives: [-i] and [--ignore-case]
    set [ignore_case], [-v] and [--invert-match] set [invert_match],
    [--verbose], [--debug] and [--revcomp] their own. *)
Theorem parse_args_flag (flag dest : string) (argv : list string) :
  In (flag, dest) flags ->
  parse_args cmdline_parser (flag :: argv)
  = option_map (with_flag dest) (parse_args cmdline_parser argv).
Proof.
  intros Hin. unfold parse_args. rewrite default_values.
  rewrite <- process_args_with_flag.
  simpl length. remember (S (length argv)) as fuel eqn:Efuel. clear Efuel.
  unfold flags in Hin. simpl in Hin.
  repeat destruct Hin as [[= <- <-] | Hin]; try contradiction;
    reflexivity.
Qed.

Lemma parse_args_flag_witness :
  In ("-v", "invert_match") flags /\
  parse_args cmdline_parser ["-v"; "ACGT"; "a.fa"]
  = Some (Args (set_true cmdline_defaults "invert_match") ["ACGT"; "a.fa"]).
Proof.
  split; [simpl; tauto|].
  refine (eq_trans (parse_args_flag "-v" "invert_match" ["ACGT"; "a.fa"] _) _).
  - simpl; tauto.
  - reflexivity.
Defined.

(** X20: What follows [--] is positional, whatever it begins with: a pattern
    or a file name with a leading dash can be given after it. *)
Theorem parse_args_terminator (pre rest args : list string) (opts : Values) :
  ~ In "--" pre ->
  parse_args cmdline_parser pre = Some (Args opts args) ->
  parse_args cmdline_parser (pre ++ "--" :: rest)
  = Some (Args opts (args ++ rest)%list).
Proof.
  intros Hno Hpre. unfold parse_args in *.
  apply (process_args_terminator _ _ _ _ _ rest _ _ Hno) in Hpre.
  apply (process_args_fuel _ _ (length rest)) in Hpre.
  rewrite <- Hpre. f_equal.
  rewrite List.length_app. simpl. lia.
Qed.

Lemma parse_args_terminator_witness :
  ~ In "--" ["-i"] /\
  parse_args cmdline_parser ["-i"; "--"; "-ACGT"; "a.fa"]
  = Some (Args (set_true cmdline_defaults "ignore_case") ["-ACGT"; "a.fa"]).
Proof.
  split.
  - simpl. intros [Hd | []]. discriminate.
  - apply (parse_args_terminator ["-i"] ["-ACGT"; "a.fa"] []).
    + simpl. intros [Hd | []]. discriminate.
    + reflexivity.
Defined.

Example pattern_with_a_dash_is_read_as_options :
  parse_args cmdline_parser ["-ACGT"; "a.fa"] = Some (Usage (no_such_option "-A")).
Proof. reflexivity. Qed.

Example search_in_abbreviated :
  parse_args cmdline_parser ["--search=seq"; "ACGT"; "a.fa"]
  = Some (Args {| search_in := "seq"; verbose := false; debug := false;
                  revcomp := false; ignore_case := false;
                  invert_match := false |} ["ACGT"; "a.fa"]).
Proof. reflexivity. Qed.

Example search_in_checked :
  parse_args cmdline_parser ["-s"; "name"; "ACGT"; "a.fa"]
  = Some (Usage (invalid_choice "-s" "name")).
Proof. reflexivity. Qed.

Section Checked.

Context {World : Type} `{Collaborators World}.

(** X21: [parse_args] always answers, and the place to search in it answers
    with is [seq] or [id]: from a command line, no record ever meets the
    ValueError of line 180. *)
Theorem parse_args_search_in (argv : list string) :
  exists r,
    parse_args cmdline_parser argv = Some r /\
    forall opts args,
      r = Args opts args ->
      (search_in opts = "seq" \/ search_in opts = "id") /\
      forall regexp print_file_prefix fseq fmt record (s : state World),
        outcome (check_record opts regexp print_file_prefix fseq fmt record s)
        = Return tt.
Proof.
  destruct (process_args_answers cmdline_parser (S (length argv)) [] argv
              (get_default_values cmdline_parser)) as [r Hr]; [lia|].
  exists r. split; [exact Hr|].
  intros opts args ->.
  assert (Hvalid : valid opts).
  { eapply process_args_valid; [|exact Hr]. now right. }
  split; [exact Hvalid|].
  intros regexp print_file_prefix fseq fmt record s.
  now destruct (check_record_run opts regexp print_file_prefix fseq fmt
                  record s Hvalid).
Qed.

End Checked.

End command_line.

(** ** More runs in the small world *)

Module MoreRuns.

Import Sample SampleOptions.

Lemma main_stdout_witness :
  (search_in cmdline_defaults = "seq" \/ search_in cmdline_defaults = "id") /\
  stdout_writes
    (trace (Sample.run cmdline_defaults ["seq"; "a.fa"; "bad.fa"; "b.gb"]))
  = [ "a.fa:>seq1 desc" ++ nl ++ "a.fa:ACGT" ++ nl;
      "a.fa:>seq2 other" ++ nl ++ "a.fa:TTTT" ++ nl;
      "bad.fa:>seq1 desc" ++ nl ++ "bad.fa:ACGT" ++ nl ].
Proof.
  split; [right; reflexivity|].
  refine (eq_trans
            (main_stdout cmdline_defaults "seq" ["a.fa"; "bad.fa"; "b.gb"]
               (boot false noon) (or_intror eq_refl)) _).
  reflexivity.
Defined.

Lemma main_exit_status_witness :
  (search_in cmdline_defaults = "seq" \/ search_in cmdline_defaults = "id") /\
  exit_status (outcome (Sample.run cmdline_defaults ["seq"; "a.fa"; "b.gb"]))
  = 0%Z /\
  exit_status (outcome (Sample.run cmdline_defaults ["seq"; "a.fa"; "bad.fa"]))
  = 1%Z.
Proof.
  split; [right; reflexivity|]. split.
  - refine (eq_trans
              (main_exit_status cmdline_defaults ["seq"; "a.fa"; "b.gb"]
                 (boot false noon) (or_intror eq_refl)) _).
    reflexivity.
  - refine (eq_trans
              (main_exit_status cmdline_defaults ["seq"; "a.fa"; "bad.fa"]
                 (boot false noon) (or_intror eq_refl)) _).
    reflexivity.
Defined.

Lemma pattern_error_stops_first_witness :
  (["a.fa"] <> [] /\
   compiled_pattern cmdline_defaults "("
   = inl (Exception "error" "unbalanced parenthesis")) /\
  outcome (Sample.run cmdline_defaults ["("; "a.fa"])
  = Uncaught (Exception "error" "unbalanced parenthesis").
Proof.
  split; [split; [discriminate | reflexivity]|].
  apply (pattern_error_stops_first cmdline_defaults "(" ["a.fa"]
           (Exception "error" "unbalanced parenthesis") (boot false noon)).
  - discriminate.
  - reflexivity.
Defined.

Lemma pattern_compiled_as_given_witness :
  (revcomp cmdline_defaults = false /\ ["a.fa"] <> []) /\
  filter staged (trace (Sample.run cmdline_defaults ["desc"; "a.fa"]))
  = [ Compile "desc" false;
      Open (open_rU "a.fa"); Parse (open_rU "a.fa") "fasta";
      Close (open_rU "a.fa") ].
Proof.
  split; [split; [reflexivity | discriminate]|].
  refine (eq_trans
            (proj1 (pattern_compiled_as_given cmdline_defaults "desc" ["a.fa"]
                      (boot false noon) eq_refl ltac:(discriminate))) _).
  reflexivity.
Defined.

Lemma verbosity_changes_stderr_only_witness :
  (same_but_verbosity chatty cmdline_defaults /\
   world (boot false noon) = world (boot false noon)) /\
  stdout (trace (Sample.run chatty ["desc"; "a.fa"]))
  = stdout (trace (Sample.run cmdline_defaults ["desc"; "a.fa"])).
Proof.
  split; [now repeat split|].
  apply (verbosity_changes_stderr_only chatty cmdline_defaults
           ["desc"; "a.fa"] (boot false noon) (boot false noon)).
  - now repeat split.
  - reflexivity.
Defined.


Lemma first_missing_file_reported_witness :
  (compiled_pattern cmdline_defaults "desc" = inr desc /\
   all_exist false ["a.fa"; "-"] = true /\ "nope.fa" <> "-" /\
   os_path_exists false "nope.fa" = false /\
   (level (boot false noon) <= logging.CRITICAL)%Z) /\
  filter is_exists
    (trace (Sample.run cmdline_defaults
              ["desc"; "a.fa"; "-"; "nope.fa"; "gone.fa"]))
  = [Exists "a.fa"; Exists "nope.fa"].
Proof.
  split; [repeat split; discriminate|].
  refine (eq_trans
            (proj1 (first_missing_file_reported cmdline_defaults "desc"
                      ["a.fa"; "-"] ["gone.fa"] "nope.fa" desc
                      (boot false noon) eq_refl eq_refl ltac:(discriminate)
                      eq_refl ltac:(discriminate))) _).
  reflexivity.
Defined.

Lemma parse_error_after_partial_output_witness :
  ((search_in cmdline_defaults = "seq" \/ search_in cmdline_defaults = "id") /\
   open_failure false "bad.fa" = None /\
   raised (fst (SeqIO_parse (handle_of "bad.fa") (guess_seqformat "bad.fa")
                  false))
   = Some truncated) /\
  outcome (search_file cmdline_defaults desc false "bad.fa" (boot false noon))
  = Uncaught truncated.
Proof.
  split; [repeat split; now right|].
  apply (parse_error_after_partial_output cmdline_defaults desc false "bad.fa"
           truncated (boot false noon)).
  - now right.
  - reflexivity.
  - reflexivity.
Defined.

Lemma invalid_search_in_prints_nothing_witness :
  (search_in name_search <> "seq" /\ search_in name_search <> "id") /\
  stdout (trace (Sample.run name_search ["desc"; "a.fa"])) = "".
Proof.
  split; [split; discriminate|].
  apply (invalid_search_in_prints_nothing name_search ["desc"; "a.fa"]
           (boot false noon)); discriminate.
Defined.

End MoreRuns.
